(** * Decentralised graph colouring: agents, negotiation and conflict audit

    A shallow embedding of the colouring agents of
    [agent_remove_negotiate.py] (sequential, negotiating),
    [agent_remove_random.py] (sequential, random) and [async_agent.py]
    (concurrent), of the baseline of [baseline_add_colours.py], of the
    matrix conflict count of [create_graph.py] and of the experiment loop of
    the negotiating variant, followed by the properties of the decision
    step, of the pairwise negotiation, of the conflict count and of whole
    rounds.

    Conventions.
    - Node ids are only compared with each other; they are taken to be
      integers ([Z]).  A colour is [option Z], where [None] is Python's
      [None] (the unset colour).
    - The graph is read through [graph.nodes()] and [graph.neighbors(n)],
      both with a fixed iteration order; networkx guarantees that every
      neighbour is itself a node, so the per-node agent attributes are kept
      as total functions on node ids.
    - [colour_scores] is one dictionary shared by every agent of a run: it
      is a single [gmap] in the state.
    - A Python [set] iterates in an implementation-defined order: the
      development is parametric in that order ([SetOrder]).
    - [random.choice] draws from a stream of naturals carried in the state.
    - Python exceptions are results [Raise e]. *)

From Stdlib Require Import ZArith Lia.
From stdpp Require Import base decidable option list gmap functions.

Local Open Scope Z_scope.

(* ===================================================================== *)
(** ** Data model *)
(* ===================================================================== *)

Abbreviation Node := Z (only parsing).
Abbreviation Colour := (option Z) (only parsing).

Inductive exn : Type := IndexError | KeyError | ValueError.

Inductive result (A : Type) : Type :=
| Ok (a : A)
| Raise (e : exn).
Arguments Ok {A} a.
Arguments Raise {A} e.

(** The part of a networkx graph the agents read. *)
Record Graph : Type := {
  nodes : list Node;
  neighbors : Node → list Node
}.

(** [len(list(graph.neighbors(n)))] *)
Definition degree (g : Graph) (n : Node) : Z := Z.of_nat (length (neighbors g n)).

(** The state the agents share and mutate: each node's agent ([colour],
    [intended_colour]), the score board and the random source. *)
Record World : Type := {
  colour : Node → Colour;
  intended_colour : Node → Colour;
  colour_scores : gmap Colour Z;
  rng : nat → nat
}.

Definition set_colour (me : Node) (c : Colour) (w : World) : World :=
  {| colour := <[me := c]> (colour w); intended_colour := intended_colour w;
     colour_scores := colour_scores w; rng := rng w |}.

Definition set_intended (me : Node) (c : Colour) (w : World) : World :=
  {| colour := colour w; intended_colour := <[me := c]> (intended_colour w);
     colour_scores := colour_scores w; rng := rng w |}.

Definition set_scores (sb : gmap Colour Z) (w : World) : World :=
  {| colour := colour w; intended_colour := intended_colour w;
     colour_scores := sb; rng := rng w |}.

Definition set_rng (r : nat → nat) (w : World) : World :=
  {| colour := colour w; intended_colour := intended_colour w;
     colour_scores := colour_scores w; rng := r |}.

(** *** State and exception monad *)

Definition M (A : Type) : Type := World → result (A * World).

Global Instance M_ret : MRet M := λ A a w, Ok (a, w).

Global Instance M_bind : MBind M := λ A B f m w,
  match m w with
  | Ok (a, w') => f a w'
  | Raise e => Raise e
  end.

Definition gets {A : Type} (f : World → A) : M A := λ w, Ok (f w, w).
Definition modify (f : World → World) : M unit := λ w, Ok (tt, f w).

(** *** Score board *)

(** [colour_scores.get(c, 0)] *)
Definition sb_get (sb : gmap Colour Z) (c : Colour) : Z := default 0 (sb !! c).

(** [colour_scores[c]] *)
Definition sb_index (sb : gmap Colour Z) (c : Colour) : result Z :=
  match sb !! c with
  | Some v => Ok v
  | None => Raise KeyError
  end.

(** [colour_scores[c] += d] *)
Definition sb_add (c : Colour) (d : Z) : M unit := λ w,
  match colour_scores w !! c with
  | Some v => Ok (tt, set_scores (<[c := v + d]> (colour_scores w)) w)
  | None => Raise KeyError
  end.

(** *** Python sets *)

(** A set is kept as a duplicate-free list; [set_list] gives the order in
    which Python iterates over it. *)
Class SetOrder : Type := {
  set_list : list Colour → list Colour;
  set_list_perm : ∀ s, set_list s ≡ₚ s
}.

(** [set(l)] *)
Definition py_set (l : list Colour) : list Colour := remove_dups l.

(** [s - set(l)] *)
Definition set_minus (s l : list Colour) : list Colour := filter (λ c, c ∉ l) s.

(** The order in which the members are listed. *)
#[refine] Instance listing_order : SetOrder := {| set_list := λ s, s |}.
Proof. done. Defined.

(** *** Random source *)

(** [random.choice(l)] *)
Definition random_choice {A : Type} (l : list A) : M A := λ w,
  match l with
  | [] => Raise IndexError
  | c :: _ =>
      Ok (nth (rng w 0%nat mod length l)%nat l c, set_rng (λ i, rng w (S i)) w)
  end.

(** *** Agents *)

(** [ColourAgent.__init__]: a stored colour outside the palette is unset. *)
Definition initial_agent_colour (colours_range : list Z) (initial_colour : Z) : Colour :=
  if bool_decide (initial_colour ∈ colours_range) then Some initial_colour else None.

(** The loop of [simulate_colouring] that gives every node a fresh agent. *)
Definition create_agents (stored : Node → Z) (colours_range : list Z) (w : World) : World :=
  {| colour := λ n, initial_agent_colour colours_range (stored n);
     intended_colour := λ _, None;
     colour_scores := colour_scores w; rng := rng w |}.

(** [perceive_environment] *)
Definition perceive_environment (g : Graph) (me : Node) (w : World) : list Colour :=
  colour w <$> neighbors g me.

(** The scan of [update_colour_score] for a neighbour that holds colour
    [c]; it stops at the first one. *)
Fixpoint some_neighbour_has (col : Node → Colour) (c : Colour) (ns : list Node) : bool :=
  match ns with
  | [] => false
  | neighbour :: rest =>
      if bool_decide (col neighbour = c) then true else some_neighbour_has col c rest
  end.

(** [count_conflicts], the same in every variant. *)
Definition matching_neighbours (g : Graph) (col : Node → Colour) (node : Node) : nat :=
  length (filter (λ neighbour, col node = col neighbour) (neighbors g node)).

Definition count_conflicts (g : Graph) (col : Node → Colour) : nat :=
  (sum_list_with (matching_neighbours g col) (nodes g) / 2)%nat.

(* ===================================================================== *)
(** ** The sequential negotiating agent ([agent_remove_negotiate.py]) *)
(* ===================================================================== *)

Module Negotiate.

(** One turn of the loop of [assess_colour]. *)
Definition assess_step (g : Graph) (sb : gmap Colour Z) (me : Node) (c : Colour)
    (my_score : Z) (neighbour_id : Node) : Z :=
  let my_degree := degree g me in
  let neighbour_degree := degree g neighbour_id in
  let neighbour_score := sb_get sb c in
  if bool_decide (my_degree < neighbour_degree)
     || (bool_decide (my_degree = neighbour_degree)
         && bool_decide (my_score < neighbour_score))
  then my_score - 1
  else if bool_decide (my_degree = neighbour_degree)
          && bool_decide (my_score = neighbour_score)
          && bool_decide (me < neighbour_id)
  then my_score - 1
  else my_score + 1.

Definition assess_colour (g : Graph) (sb : gmap Colour Z) (me : Node) (c : Colour) : Z :=
  fold_left (assess_step g sb me c) (neighbors g me) (sb_get sb c).

(** The loop of [colour_negotiation]; [max_score = None] is minus infinity. *)
Fixpoint negotiation_loop (score : Colour → Z) (colour_choices : list Colour)
    (max_score : option Z) (optimal_colour : Colour) : Colour :=
  match colour_choices with
  | [] => optimal_colour
  | c :: rest =>
      let s := score c in
      if match max_score with None => true | Some m => bool_decide (m < s) end
      then negotiation_loop score rest (Some s) c
      else negotiation_loop score rest max_score optimal_colour
  end.

(** [colour_negotiation]; [colour_choices] is listed in iteration order. *)
Definition colour_negotiation (g : Graph) (me : Node) (colour_choices : list Colour) : M Colour :=
  optimal_colour ← random_choice colour_choices;
  sb ← gets colour_scores;
  mret (negotiation_loop (assess_colour g sb me) colour_choices None optimal_colour).

(** The [for ... else] of [update_colour_score]. *)
Definition update_colour_score (g : Graph) (me : Node) : M unit :=
  col ← gets colour;
  if some_neighbour_has col (col me) (neighbors g me)
  then sb_add (col me) (-10)
  else sb_add (col me) 10.

(** [set(self.colours_range) - set(neighbours_colours) - {self.colour}] *)
Definition available_colours (colours_range : list Z) (neighbours_colours : list Colour)
    (own : Colour) : list Colour :=
  set_minus (set_minus (py_set (Some <$> colours_range)) neighbours_colours) [own].

Definition decide_new_colour `{SetOrder} (g : Graph) (colours_range : list Z) (me : Node)
    (neighbours_colours : list Colour) : M bool :=
  own ← gets (λ w, colour w me);
  let available := available_colours colours_range neighbours_colours own in
  if bool_decide (available = []) then
    c ← colour_negotiation g me neighbours_colours;
    _ ← modify (set_colour me c);
    mret true
  else if bool_decide (own ∈ neighbours_colours) || bool_decide (own = None) then
    c ← colour_negotiation g me (set_list available);
    _ ← modify (set_intended me c);
    if bool_decide (c = None) || true then
      _ ← modify (set_colour me c);
      _ ← update_colour_score g me;
      mret true
    else mret false
  else mret true.

(** The decision loop of [simulate_colouring]. *)
Fixpoint decision_round `{SetOrder} (g : Graph) (colours_range : list Z) (ns : list Node) : M bool :=
  match ns with
  | [] => mret true
  | node :: rest =>
      neighbours_colours ← gets (perceive_environment g node);
      decide_new_colour g colours_range node neighbours_colours ≫= λ ok : bool,
      if ok then decision_round g colours_range rest else mret false
  end.

Definition simulate_colouring `{SetOrder} (g : Graph) (stored : Node → Z)
    (colours_range : list Z) : M bool :=
  _ ← modify (create_agents stored colours_range);
  decision_round g colours_range (nodes g).

End Negotiate.

(* ===================================================================== *)
(** ** The sequential random agent ([agent_remove_random.py]) *)
(* ===================================================================== *)

Module RandomAgent.

Definition decide_new_colour `{SetOrder} (colours_range : list Z) (me : Node)
    (neighbours_colours : list Colour) : M bool :=
  own ← gets (λ w, colour w me);
  let available :=
    set_minus (set_minus (py_set (Some <$> colours_range)) neighbours_colours) [own] in
  if bool_decide (own ∈ neighbours_colours) || bool_decide (own = None) then
    if bool_decide (available = []) then mret false
    else
      c ← random_choice (set_list available);
      _ ← modify (set_colour me c);
      mret true
  else mret true.

Fixpoint decision_round `{SetOrder} (g : Graph) (colours_range : list Z) (ns : list Node) : M bool :=
  match ns with
  | [] => mret true
  | node :: rest =>
      neighbours_colours ← gets (perceive_environment g node);
      decide_new_colour colours_range node neighbours_colours ≫= λ ok : bool,
      if ok then decision_round g colours_range rest else mret false
  end.

Definition simulate_colouring `{SetOrder} (g : Graph) (stored : Node → Z)
    (colours_range : list Z) : M bool :=
  _ ← modify (create_agents stored colours_range);
  decision_round g colours_range (nodes g).

End RandomAgent.

(* ===================================================================== *)
(** ** The concurrent agent ([async_agent.py]) *)
(* ===================================================================== *)

Module Async.

(** [self.colour_scores[c]] for every member of [l], as [sorted] computes
    its keys. *)
Fixpoint score_keys (sb : gmap Colour Z) (l : list Colour) : result (list (Z * Colour)) :=
  match l with
  | [] => Ok []
  | c :: rest =>
      match sb_index sb c with
      | Raise e => Raise e
      | Ok k =>
          match score_keys sb rest with
          | Raise e => Raise e
          | Ok ks => Ok ((k, c) :: ks)
          end
      end
  end.

(** [sorted(..., reverse=True)] is stable: members with equal keys keep
    their order. *)
Fixpoint insert_desc (x : Z * Colour) (l : list (Z * Colour)) : list (Z * Colour) :=
  match l with
  | [] => [x]
  | y :: rest => if bool_decide (y.1 ≤ x.1) then x :: y :: rest else y :: insert_desc x rest
  end.

Definition sorted_desc (l : list (Z * Colour)) : list (Z * Colour) := foldr insert_desc [] l.

(** [sorted(l, key=lambda c: self.colour_scores[c], reverse=True)[0]] *)
Definition best_colour (l : list Colour) : M Colour := λ w,
  match score_keys (colour_scores w) l with
  | Raise e => Raise e
  | Ok ks =>
      match sorted_desc ks with
      | [] => Raise IndexError
      | kc :: _ => Ok (kc.2, w)
      end
  end.

(** The loop and early [return] of [update_colour_score]. *)
Definition update_colour_score (g : Graph) (me : Node) (chosen_colour : Colour) : M unit :=
  col ← gets colour;
  if some_neighbour_has col chosen_colour (neighbors g me)
  then sb_add chosen_colour (-5)
  else sb_add chosen_colour 5.

(** [decide_new_colour]; the synchronisation event is set when the tasks
    run, so the wait returns at once. *)
Definition decide_new_colour `{SetOrder} (g : Graph) (colours_range : list Z) (me : Node)
    (neighbours_colours : list Colour) : M unit :=
  let available := set_minus (py_set (Some <$> colours_range)) neighbours_colours in
  best ← (if bool_decide (available = []) then best_colour neighbours_colours
          else best_colour (set_list available));
  _ ← modify (set_intended me best);
  own ← gets (λ w, colour w me);
  if bool_decide (best ≠ own) then
    _ ← modify (set_colour me best);
    update_colour_score g me best
  else mret tt.

(** [max(l, key=lambda c: self.colour_scores.get(c, 0))]: the first member
    with the greatest key. *)
Fixpoint max_loop (key : Colour → Z) (l : list Colour) (best : Colour) : Colour :=
  match l with
  | [] => best
  | c :: rest => if bool_decide (key best < key c) then max_loop key rest c
                 else max_loop key rest best
  end.

Definition py_max (key : Colour → Z) (l : list Colour) : result Colour :=
  match l with
  | [] => Raise ValueError
  | c :: rest => Ok (max_loop key rest c)
  end.

Definition change_intent `{SetOrder} (g : Graph) (colours_range : list Z) (me : Node) : M unit := λ w,
  let neighbours_colours := perceive_environment g me w in
  let available := set_minus (py_set (Some <$> colours_range)) neighbours_colours in
  let available := set_minus available [intended_colour w me] in
  let key := sb_get (colour_scores w) in
  match (if bool_decide (available ≠ []) then py_max key (set_list available)
         else py_max key neighbours_colours) with
  | Raise e => Raise e
  | Ok c => Ok (tt, set_intended me c w)
  end.

(** [negotiate_intent], run by agent [me] about its neighbour. *)
Definition negotiate_intent `{SetOrder} (g : Graph) (colours_range : list Z) (me : Node)
    (neighbour_id : Node) (neighbour_intended_colour : Colour) : M unit := λ w,
  if bool_decide (neighbour_intended_colour = intended_colour w me) then
    let my_degree := degree g me in
    let neighbour_degree := degree g neighbour_id in
    match sb_index (colour_scores w) (intended_colour w me),
          sb_index (colour_scores w) neighbour_intended_colour with
    | Raise e, _ => Raise e
    | _, Raise e => Raise e
    | Ok my_score, Ok neighbour_score =>
        if bool_decide (my_degree > neighbour_degree)
           || (bool_decide (my_degree = neighbour_degree)
               && bool_decide (my_score > neighbour_score))
           || (bool_decide (my_degree = neighbour_degree)
               && bool_decide (my_score = neighbour_score)
               && bool_decide (me > neighbour_id))
        then change_intent g colours_range neighbour_id w
        else change_intent g colours_range me w
    end
  else Ok (tt, w).

(** [negotiate_with_neighbours], over the neighbours [ns] of agent [me]. *)
Fixpoint negotiate_with_neighbours `{SetOrder} (g : Graph) (colours_range : list Z) (me : Node)
    (ns : list Node) : M unit :=
  match ns with
  | [] => mret tt
  | neighbour_id :: rest =>
      theirs ← gets (λ w, intended_colour w neighbour_id);
      _ ← negotiate_intent g colours_range me neighbour_id theirs;
      negotiate_with_neighbours g colours_range me rest
  end.

(** The palette update at the head of an iteration of [simulate_colouring]:
    [colours_range.remove(random.choice(colours_range))]. *)
Fixpoint list_remove (x : Z) (l : list Z) : list Z :=
  match l with
  | [] => []
  | y :: rest => if bool_decide (y = x) then rest else y :: list_remove x rest
  end.

Definition shrink_palette (colours_range : list Z) : M (list Z) :=
  if bool_decide (5 < length colours_range)%nat then
    removed_color ← random_choice colours_range;
    mret (list_remove removed_color colours_range)
  else mret colours_range.

(** The head of each task of an iteration, [perceive_environment] and
    [decide_new_colour]: no task is suspended before its broadcast, so these
    run one task after the other, in the order of [graph.nodes()]. *)
Fixpoint decide_phase `{SetOrder} (g : Graph) (colours_range : list Z) (ns : list Node) : M unit :=
  match ns with
  | [] => mret tt
  | node :: rest =>
      neighbours_colours ← gets (perceive_environment g node);
      _ ← decide_new_colour g colours_range node neighbours_colours;
      decide_phase g colours_range rest
  end.

(** An iteration of [simulate_colouring] up to the end of the decisions:
    the palette update, the rewiring when six colours are left, and the
    decisions.  The negotiation that follows only writes [intended_colour].
    [rewire_edges] ([edge_rewiring.py]) is a parameter: it draws from the
    random source and gives the rewired graph. *)
Definition iteration_decisions `{SetOrder} (rewire_edges : Graph → M Graph) (g : Graph)
    (colours_range : list Z) : M (list Z * Graph) :=
  colours_range' ← shrink_palette colours_range;
  g' ← (if bool_decide (length colours_range' = 6%nat) then rewire_edges g else mret g);
  _ ← decide_phase g' colours_range' (nodes g');
  mret (colours_range', g').

End Async.

(* ===================================================================== *)
(** ** Statements of the specification *)
(* ===================================================================== *)

(** What may be observed of a call that returns. *)
Definition holds_after {A : Type} (Q : A → World → Prop) (r : result (A * World)) : Prop :=
  match r with
  | Ok (a, w') => Q a w'
  | Raise _ => True
  end.

(** [colour] is unset or a member of the palette. *)
Definition in_palette (colours_range : list Z) (c : Colour) : Prop :=
  match c with
  | None => True
  | Some k => k ∈ colours_range
  end.

Definition palette_contained (colours_range : list Z) (w : World) : Prop :=
  ∀ n, in_palette colours_range (colour w n).

(** Every palette colour has an entry in the score board. *)
Definition scores_cover (colours_range : list Z) (sb : gmap Colour Z) : Prop :=
  ∀ k, k ∈ colours_range → is_Some (sb !! Some k).

(** The call returns [True], or raises [IndexError] or [KeyError]. *)
Definition never_false (r : result (bool * World)) : Prop :=
  match r with
  | Ok (b, _) => b = true
  | Raise e => e = IndexError ∨ e = KeyError
  end.

(** *** [assess]

    The rule of the specification: a neighbour outranks me when it has a
    strictly higher degree, or equal degree and a strictly higher score, or
    equal degree and score but a lower node id.  Both scores are values of
    the one shared score board. *)
Definition outranks_spec (g : Graph) (sb : gmap Colour Z) (me : Node) (c : Colour)
    (neighbour : Node) : Prop :=
  let my_score := sb_get sb c in
  let neighbour_score := sb_get sb c in
  degree g me < degree g neighbour
  ∨ (degree g neighbour = degree g me ∧ my_score < neighbour_score)
  ∨ (degree g neighbour = degree g me ∧ neighbour_score = my_score ∧ neighbour < me).

Global Instance outranks_spec_dec g sb me c n : Decision (outranks_spec g sb me c n).
Proof. unfold outranks_spec. apply _. Defined.

Definition assess_spec (g : Graph) (sb : gmap Colour Z) (me : Node) (c : Colour) : Z :=
  fold_left (λ acc n, if decide (outranks_spec g sb me c n) then acc - 1 else acc + 1)
            (neighbors g me) (sb_get sb c).

(** The rule the code follows: the score compared with the neighbour's is
    the running value [acc], and on a full tie the neighbour with the
    higher node id outranks me. *)
Definition outranks_running (g : Graph) (sb : gmap Colour Z) (me : Node) (c : Colour)
    (acc : Z) (neighbour : Node) : Prop :=
  degree g me < degree g neighbour
  ∨ (degree g neighbour = degree g me ∧ acc < sb_get sb c)
  ∨ (degree g neighbour = degree g me ∧ sb_get sb c = acc ∧ me < neighbour).

Global Instance outranks_running_dec g sb me c acc n :
  Decision (outranks_running g sb me c acc n).
Proof. unfold outranks_running. apply _. Defined.

Definition assess_running (g : Graph) (sb : gmap Colour Z) (me : Node) (c : Colour) : Z :=
  fold_left (λ acc n, if decide (outranks_running g sb me c acc n) then acc - 1 else acc + 1)
            (neighbors g me) (sb_get sb c).

(** *** Negotiation

    The winner of a collision on colour [c], as the specification writes
    it for agents [a] and [b]. *)
Definition winner_spec (g : Graph) (sb : gmap Colour Z) (c : Colour) (a b : Node) : Node :=
  let score_a := sb_get sb c in
  let score_b := sb_get sb c in
  if decide (degree g a > degree g b) then a
  else if decide (degree g a = degree g b ∧ score_a > score_b) then a
  else if decide (degree g a = degree g b ∧ score_a = score_b ∧ a > b) then a
  else b.

Definition loser_spec (g : Graph) (sb : gmap Colour Z) (c : Colour) (a b : Node) : Node :=
  if decide (winner_spec g sb c a b = a) then b else a.

(** *** Conflicts

    Every undirected edge once, from its endpoint with the smaller id. *)
Definition edges (g : Graph) : list (Node * Node) :=
  u ← nodes g; (λ v, (u, v)) <$> filter (λ v, u < v) (neighbors g u).

(** A conflict as the specification counts it: equal colours, both set. *)
Definition conflict_spec (col : Node → Colour) (e : Node * Node) : Prop :=
  col e.1 = col e.2 ∧ col e.1 ≠ None ∧ col e.2 ≠ None.

Global Instance conflict_spec_dec col e : Decision (conflict_spec col e).
Proof. unfold conflict_spec. apply _. Defined.

Definition count_conflicts_spec (g : Graph) (col : Node → Colour) : nat :=
  length (filter (conflict_spec col) (edges g)).

(** A conflict as the code counts it: equal colours, set or not. *)
Definition same_colour (col : Node → Colour) (e : Node * Node) : Prop := col e.1 = col e.2.

Global Instance same_colour_dec col e : Decision (same_colour col e).
Proof. unfold same_colour. apply _. Defined.

(** Neighbour [v] lies below or above node [u] in the order of the ids. *)
Definition on_side (below : bool) (u v : Node) : Prop := if below then v < u else u < v.

Global Instance on_side_dec below u v : Decision (on_side below u v).
Proof. destruct below; unfold on_side; apply _. Defined.

(** The ordered pairs [(u, v)] of equally coloured neighbours that the
    loops of [count_conflicts] meet, split by the side of [u] on which [v]
    lies. *)
Definition directed_conflicts (below : bool) (g : Graph) (col : Node → Colour)
    : list (Node * Node) :=
  u ← nodes g;
  (λ v, (u, v)) <$> filter (λ v, on_side below u v ∧ col u = col v) (neighbors g u).

(** A networkx [Graph] without self-loops: the nodes are distinct, a
    node's neighbours are distinct nodes other than itself, and adjacency is
    symmetric. *)
Definition simple_graph (g : Graph) : Prop :=
  NoDup (nodes g)
  ∧ Forall (λ u, NoDup (neighbors g u)
               ∧ Forall (λ v, v ∈ nodes g ∧ u ∈ neighbors g v ∧ u ≠ v) (neighbors g u))
           (nodes g).

Global Instance simple_graph_dec g : Decision (simple_graph g).
Proof. unfold simple_graph. apply _. Defined.

(** *** Graphs and states of the examples *)

Fixpoint adjacency (adj : list (Node * list Node)) (n : Node) : list Node :=
  match adj with
  | [] => []
  | (k, ns) :: rest => if bool_decide (k = n) then ns else adjacency rest n
  end.

Definition graph_of (adj : list (Node * list Node)) : Graph :=
  {| nodes := adj.*1; neighbors := adjacency adj |}.

(** A single node. *)
Definition lone_node : Graph := graph_of [(0, [])].

(** Two nodes joined by an edge. *)
Definition path2 : Graph := graph_of [(0, [1]); (1, [0])].

(** The cycle 0-1-2-3-0. *)
Definition cycle4 : Graph := graph_of [(0, [1; 3]); (1, [0; 2]); (2, [1; 3]); (3, [2; 0])].

(** A centre with six leaves. *)
Definition star6 : Graph :=
  graph_of [(0, [1; 2; 3; 4; 5; 6]); (1, [0]); (2, [0]); (3, [0]); (4, [0]); (5, [0]); (6, [0])].

(** Node 0 has degree 4 and node 1 has degree 2. *)
Definition kite : Graph :=
  graph_of [(0, [1; 2; 3; 4]); (1, [0; 2]); (2, [0; 1]); (3, [0]); (4, [0])].

Definition zero_scores (colours : list Z) : gmap Colour Z :=
  list_to_map ((λ c, (Some c, 0)) <$> colours).

Definition world_of (col intent : Node → Colour) (sb : gmap Colour Z) : World :=
  {| colour := col; intended_colour := intent; colour_scores := sb; rng := λ _, 0%nat |}.

Definition colours_of (cs : list Colour) (n : Node) : Colour :=
  default None (cs !! Z.to_nat n).

Definition stored_of (cs : list Z) (n : Node) : Z := default 0 (cs !! Z.to_nat n).

(* ===================================================================== *)
(** ** The baseline without agents ([baseline_add_colours.py]) *)
(* ===================================================================== *)

(** The baseline keeps a colour in the ["colour"] attribute of every node
    and has no agents: the [colour] field of the state stands for that
    attribute, and [perceive_environment] for the list
    [[graph.nodes[n]["colour"] for n in neighbours]]. *)
Module Baseline.

(** [assign_initial_colours], over the nodes [ns]. *)
Fixpoint assign_initial_colours (ns : list Node) (colours_range : list Z) : M unit :=
  match ns with
  | [] => mret tt
  | node :: rest =>
      c ← random_choice colours_range;
      _ ← modify (set_colour node (Some c));
      assign_initial_colours rest colours_range
  end.

(** [update_node_colours], over the nodes [ns]. *)
Fixpoint update_node_colours `{SetOrder} (g : Graph) (ns : list Node)
    (colours_range : list Z) : M unit :=
  match ns with
  | [] => mret tt
  | node :: rest =>
      neighbours_colours ← gets (perceive_environment g node);
      let available_colours :=
        set_minus (py_set (Some <$> colours_range)) neighbours_colours in
      _ ← (if bool_decide (available_colours ≠ []) then
             c ← random_choice (set_list available_colours);
             modify (set_colour node c)
           else mret tt);
      update_node_colours g rest colours_range
  end.

(** One turn of the [while conflicts != 0] loop of [simulate_colouring],
    with [num_colours] already incremented: [list(range(num_colours))], the
    two passes over the nodes and the conflict count. *)
Definition colouring_attempt `{SetOrder} (g : Graph) (num_colours : nat) : M nat :=
  let colours_range := seqZ 0 (Z.of_nat num_colours) in
  _ ← assign_initial_colours (nodes g) colours_range;
  _ ← update_node_colours g (nodes g) colours_range;
  gets (λ w, count_conflicts g (colour w)).

(** The [while conflicts != 0] loop of one experiment run; it is entered
    with [conflicts = 1].  [fuel] bounds the number of turns, [None] is a
    loop that has not stopped within the bound.  The result is the final
    [num_colours] and the rows [(num_colours, conflicts)] appended to
    [baseline_results]. *)
Fixpoint colour_search `{SetOrder} (fuel : nat) (g : Graph) (num_colours : nat)
    (results : list (nat * nat)) : M (option (nat * list (nat * nat))) :=
  match fuel with
  | O => mret None
  | S fuel' =>
      let num_colours := S num_colours in
      colouring_attempt g num_colours ≫= λ conflicts : nat,
      let results := results ++ [(num_colours, conflicts)] in
      if bool_decide (conflicts = 0%nat) then mret (Some (num_colours, results))
      else colour_search fuel' g num_colours results
  end.

End Baseline.

(* ===================================================================== *)
(** ** The conflict count on the adjacency matrix ([create_graph.py]) *)
(* ===================================================================== *)

Module CreateGraph.

(** A square numpy array: [size] is [len(matrix)], [entry i j] is
    [matrix[i, j]], of which only the sign is read. *)
Record Matrix : Type := {
  size : nat;
  entry : nat → nat → Z
}.

(** [node_colors[i]] *)
Definition colour_at (node_colors : list Z) (i : nat) : result Z :=
  match node_colors !! i with
  | Some c => Ok c
  | None => Raise IndexError
  end.

(** [matrix[i, j] > 0 and node_colors[i] == node_colors[j]] *)
Definition pair_conflicts (matrix : Matrix) (node_colors : list Z) (i j : nat) : result bool :=
  if bool_decide (0 < entry matrix i j) then
    match colour_at node_colors i with
    | Ok a =>
        match colour_at node_colors j with
        | Ok b => Ok (bool_decide (a = b))
        | Raise e => Raise e
        end
    | Raise e => Raise e
    end
  else Ok false.

(** The inner loop of [count_conflicts], over the columns [js]. *)
Fixpoint count_row (matrix : Matrix) (node_colors : list Z) (i : nat) (js : list nat)
    (conflicts : nat) : result nat :=
  match js with
  | [] => Ok conflicts
  | j :: rest =>
      match pair_conflicts matrix node_colors i j with
      | Ok b => count_row matrix node_colors i rest (if b then S conflicts else conflicts)
      | Raise e => Raise e
      end
  end.

(** The outer loop of [count_conflicts], over the rows [rows]. *)
Fixpoint count_rows (matrix : Matrix) (node_colors : list Z) (rows : list nat)
    (conflicts : nat) : result nat :=
  match rows with
  | [] => Ok conflicts
  | i :: rest =>
      match count_row matrix node_colors i (seq (S i) (size matrix - S i)) conflicts with
      | Ok conflicts' => count_rows matrix node_colors rest conflicts'
      | Raise e => Raise e
      end
  end.

Definition count_conflicts (matrix : Matrix) (node_colors : list Z) : result nat :=
  count_rows matrix node_colors (seq 0 (size matrix)) 0.

End CreateGraph.

(* ===================================================================== *)
(** ** The experiment of the negotiating variant ([main] of
       [agent_remove_negotiate.py]) *)
(* ===================================================================== *)

Module Experiment.

(** [if len(colours_range) > 0:
       colours_range.remove(random.choice(colours_range))] *)
Definition remove_colour (colours_range : list Z) : M (list Z) :=
  if bool_decide (0 < length colours_range)%nat then
    c ← random_choice colours_range;
    mret (Async.list_remove c colours_range)
  else mret colours_range.

(** The [while not experiment_terminated_early] loop of one experiment
    run.  [fuel] bounds the number of turns, [None] is a loop that has not
    stopped within the bound.  [stored] is the node attribute ["colour"],
    which no round writes; [rewire_edges] ([edge_rewiring.py]) is a
    parameter: it draws from the random source and gives the rewired graph.
    The result is the graph, the palette and [conflicts] at the end, and
    the rows [(len(colours_range), conflicts)] appended to
    [baseline_results]. *)
Fixpoint experiment_loop `{SetOrder} (fuel : nat) (rewire_edges : Graph → M Graph)
    (stored : Node → Z) (g : Graph) (colours_range : list Z) (inner_counter conflicts : nat)
    (results : list (nat * nat)) : M (option (Graph * list Z * nat * list (nat * nat))) :=
  match fuel with
  | O => mret None
  | S fuel' =>
      let inner_counter := S inner_counter in
      if bool_decide (inner_counter = 10%nat) then
        mret (Some (g, colours_range, conflicts, results))
      else
        remove_colour colours_range ≫= λ colours_range : list Z,
        (if bool_decide (length colours_range = 8%nat) then rewire_edges g else mret g)
          ≫= λ g : Graph,
        Negotiate.simulate_colouring g stored colours_range ≫= λ ok : bool,
        gets (λ w, count_conflicts g (colour w)) ≫= λ conflicts : nat,
        let results := results ++ [(length colours_range, conflicts)] in
        if ok then
          experiment_loop fuel' rewire_edges stored g colours_range inner_counter conflicts
                          results
        else mret (Some (g, colours_range, conflicts, results))
  end.

End Experiment.

(* ===================================================================== *)
(** ** Statements about rounds *)
(* ===================================================================== *)

(** No node of the graph shares its colour with a neighbour. *)
Definition proper_colouring (g : Graph) (col : Node → Colour) : Prop :=
  ∀ u, u ∈ nodes g → ∀ v, v ∈ neighbors g u → col u ≠ col v.

(** Every node of the graph holds a colour. *)
Definition all_set (g : Graph) (col : Node → Colour) : Prop :=
  ∀ u, u ∈ nodes g → col u ≠ None.

(** The number of distinct colours of the palette. *)
Definition palette_size (colours_range : list Z) : nat :=
  length (py_set (Some <$> colours_range)).

(** The nodes of [decided] are set and differ from all their neighbours. *)
Definition settled (g : Graph) (col : Node → Colour) (decided : list Node) : Prop :=
  ∀ u, u ∈ decided → col u ≠ None ∧ ∀ v, v ∈ neighbors g u → col u ≠ col v.

(** [c] is the first member of [l] with the greatest score. *)
Definition first_greatest (score : Colour → Z) (l : list Colour) (c : Colour) : Prop :=
  ∃ l1 l2, l = l1 ++ c :: l2
           ∧ (∀ x, x ∈ l1 → score x < score c)
           ∧ (∀ x, x ∈ l2 → score x ≤ score c).

(** [matrix] is the adjacency matrix of [g], as [nx.to_numpy_array] gives
    it: the nodes are the row numbers, and an entry is positive exactly
    where the row's node has the column's node as a neighbour. *)
Definition adjacency_matrix (g : Graph) (matrix : CreateGraph.Matrix) : Prop :=
  nodes g = Z.of_nat <$> seq 0 (CreateGraph.size matrix)
  ∧ Forall (λ i, Forall (λ j, 0 < CreateGraph.entry matrix i j
                              ↔ Z.of_nat j ∈ neighbors g (Z.of_nat i))
                        (seq 0 (CreateGraph.size matrix)))
           (seq 0 (CreateGraph.size matrix)).

Global Instance adjacency_matrix_dec g matrix : Decision (adjacency_matrix g matrix).
Proof. unfold adjacency_matrix. apply _. Defined.

(** The colour of node [u] in the list [node_colors]. *)
Definition listed_colour (node_colors : list Z) (u : Node) : Colour :=
  node_colors !! Z.to_nat u.

(** [rewire_edges] returns and leaves the score board alone. *)
Definition rewiring_returns (rewire_edges : Graph → M Graph) : Prop :=
  ∀ g w, ∃ g' w', rewire_edges g w = Ok (g', w') ∧ colour_scores w' = colour_scores w.

(* ===================================================================== *)
(** ** Properties *)
(* ===================================================================== *)

Ltac munfold :=
  unfold mbind, M_bind, mret, M_ret, gets, modify in *.

(** *** Sets and choices *)

Lemma set_list_elem `{SetOrder} (s : list Colour) (c : Colour) : c ∈ set_list s ↔ c ∈ s.
Proof. by rewrite set_list_perm. Qed.

Lemma set_list_nil `{SetOrder} (s : list Colour) : set_list s = [] ↔ s = [].
Proof.
  pose proof (Permutation_length (set_list_perm s)) as Hlen.
  split; intros Hs.
  - rewrite Hs in Hlen. by destruct s.
  - subst s. by destruct (set_list []).
Qed.

Lemma elem_of_set_minus (s l : list Colour) (c : Colour) :
  c ∈ set_minus s l ↔ c ∈ s ∧ c ∉ l.
Proof. unfold set_minus. rewrite list_elem_of_filter. tauto. Qed.

Lemma elem_of_py_set_palette (colours_range : list Z) (c : Colour) :
  c ∈ py_set (Some <$> colours_range) ↔ ∃ k, c = Some k ∧ k ∈ colours_range.
Proof. unfold py_set. rewrite elem_of_remove_dups. apply list_elem_of_fmap. Qed.

(** *** C3: [assess_colour] *)

Lemma assess_step_running g sb me c acc n :
  Negotiate.assess_step g sb me c acc n
  = if decide (outranks_running g sb me c acc n) then acc - 1 else acc + 1.
Proof.
  unfold Negotiate.assess_step, outranks_running.
  case_decide; repeat case_bool_decide; simpl; lia.
Qed.

Lemma assess_fold_running g sb me c ns acc :
  fold_left (Negotiate.assess_step g sb me c) ns acc
  = fold_left (λ acc n, if decide (outranks_running g sb me c acc n) then acc - 1 else acc + 1)
              ns acc.
Proof.
  revert acc. induction ns as [|n ns IH]; intros acc; simpl; [done|].
  rewrite assess_step_running. apply IH.
Qed.

(** Every neighbour moves the assessment by exactly one. *)
Lemma assess_fold_bounds g sb me c ns acc :
  acc - Z.of_nat (length ns)
  ≤ fold_left (Negotiate.assess_step g sb me c) ns acc
  ≤ acc + Z.of_nat (length ns).
Proof.
  revert acc. induction ns as [|n ns IH]; intros acc; simpl length; simpl fold_left; [lia|].
  specialize (IH (Negotiate.assess_step g sb me c acc n)).
  rewrite assess_step_running in IH |- *.
  case_decide; lia.
Qed.

(** C3, as amended.  [assess_colour] starts from the agent's score-board
    value for the colour and adjusts it by one per neighbour, in adjacency
    order: down when the neighbour has a strictly higher degree, or equal
    degree and a score-board value above the running value, or equal degree,
    a value equal to the running value and a higher node id; up in every
    other case.  The result is within the agent's degree of the score-board
    value. *)
Theorem assess_colour_running g sb me c :
  Negotiate.assess_colour g sb me c = assess_running g sb me c
  ∧ sb_get sb c - degree g me ≤ Negotiate.assess_colour g sb me c ≤ sb_get sb c + degree g me.
Proof.
  split; [apply assess_fold_running | apply assess_fold_bounds].
Qed.

(** C3, counterexample.  In a triangle, node 1 meets neighbour 2 and then
    neighbour 0, all of degree 2 and with equal scores: the code lowers the
    score twice, the rule of the specification lowers it once (for the
    lower id 0) and raises it once. *)
Lemma assess_spec_counterexample :
  let g := graph_of [(0, [1; 2]); (1, [2; 0]); (2, [0; 1])] in
  Negotiate.assess_colour g (zero_scores [0]) 1 (Some 0) = -2
  ∧ assess_spec g (zero_scores [0]) 1 (Some 0) = 0.
Proof. split; vm_compute; reflexivity. Qed.

(** All agents read one score board, so what [assess_colour] adds to the
    score of a colour does not depend on the colour: assessing never changes
    how an agent ranks two colours. *)
Lemma assess_fold_shift g sb me c1 c2 ns d :
  fold_left (Negotiate.assess_step g sb me c1) ns (sb_get sb c1 + d) - sb_get sb c1
  = fold_left (Negotiate.assess_step g sb me c2) ns (sb_get sb c2 + d) - sb_get sb c2.
Proof.
  revert d. induction ns as [|n ns IH]; intros d; simpl; [lia|].
  assert (∃ d', Negotiate.assess_step g sb me c1 (sb_get sb c1 + d) n = sb_get sb c1 + d'
                ∧ Negotiate.assess_step g sb me c2 (sb_get sb c2 + d) n = sb_get sb c2 + d')
    as (d' & -> & ->); [|apply IH].
  rewrite !assess_step_running. unfold outranks_running.
  repeat case_decide; first [exists (d - 1); lia | exists (d + 1); lia | exfalso; lia].
Qed.

Lemma assess_colour_shift g sb me c1 c2 :
  Negotiate.assess_colour g sb me c1 - sb_get sb c1
  = Negotiate.assess_colour g sb me c2 - sb_get sb c2.
Proof.
  unfold Negotiate.assess_colour.
  rewrite <- (Z.add_0_r (sb_get sb c1)) at 1. rewrite <- (Z.add_0_r (sb_get sb c2)) at 1.
  apply assess_fold_shift.
Qed.

(** *** C2: pairwise negotiation *)

Lemma max_loop_elem (key : Colour → Z) (l : list Colour) (best : Colour) :
  Async.max_loop key l best = best ∨ Async.max_loop key l best ∈ l.
Proof.
  revert best. induction l as [|c l IH]; intros best; simpl; [by left|].
  case_bool_decide.
  - destruct (IH c) as [-> | Hin]; right; [left | by right].
  - destruct (IH best) as [-> | Hin]; [by left | right; by right].
Qed.

Lemma py_max_ok (key : Colour → Z) (l : list Colour) :
  l ≠ [] → ∃ c, Async.py_max key l = Ok c ∧ c ∈ l.
Proof.
  destruct l as [|c l]; [done|]. intros _. simpl. eexists; split; [done|].
  destruct (max_loop_elem key l c) as [-> | Hin]; [left | by right].
Qed.

(** [change_intent] returns for every agent that has a neighbour, and
    writes nothing but that agent's [intended_colour]: a free colour other
    than the current intent when there is one, else the best of the
    neighbours' colours. *)
Lemma change_intent_spec `{SetOrder} g colours_range me w :
  neighbors g me ≠ [] →
  let ncs := perceive_environment g me w in
  let available :=
    set_minus (set_minus (py_set (Some <$> colours_range)) ncs) [intended_colour w me] in
  ∃ c, Async.change_intent g colours_range me w = Ok (tt, set_intended me c w)
       ∧ (available ≠ [] → c ∈ available)
       ∧ (available = [] → Async.py_max (sb_get (colour_scores w)) ncs = Ok c ∧ c ∈ ncs).
Proof.
  intros Hne ncs available. unfold Async.change_intent.
  fold ncs. fold available.
  assert (ncs ≠ []) as Hncs.
  { unfold ncs, perceive_environment. by destruct (neighbors g me). }
  case_bool_decide as Hav.
  - destruct (py_max_ok (sb_get (colour_scores w)) (set_list available)) as (c & -> & Hc).
    + by rewrite set_list_nil.
    + exists c. split; [done|]. split; [|done]. intros _. by apply set_list_elem.
  - destruct (py_max_ok (sb_get (colour_scores w)) ncs Hncs) as (c & Hmax & Hc).
    rewrite Hmax. exists c. split; [done|]. split; [done|]. intros _. done.
Qed.

Lemma change_intent_ok `{SetOrder} g colours_range me w :
  neighbors g me ≠ [] →
  ∃ c, Async.change_intent g colours_range me w = Ok (tt, set_intended me c w).
Proof.
  intros Hne. destruct (change_intent_spec g colours_range me w Hne) as (c & Hc & _).
  by exists c.
Qed.

Lemma negotiate_intent_loser `{SetOrder} g colours_range w a b :
  intended_colour w b = intended_colour w a →
  is_Some (colour_scores w !! intended_colour w a) →
  Async.negotiate_intent g colours_range a b (intended_colour w b) w
  = Async.change_intent g colours_range
      (loser_spec g (colour_scores w) (intended_colour w a) a b) w.
Proof.
  intros Heq [s Hs]. unfold Async.negotiate_intent.
  rewrite bool_decide_eq_true_2 by done.
  rewrite Heq. unfold sb_index. rewrite Hs.
  unfold loser_spec, winner_spec.
  repeat case_decide; repeat case_bool_decide; simpl; try done; try lia; congruence.
Qed.

Lemma loser_spec_sym g sb c a b :
  a ≠ b → loser_spec g sb c b a = loser_spec g sb c a b.
Proof.
  intros Hab. unfold loser_spec, winner_spec.
  repeat case_decide; try done; try lia.
Qed.



(** *** C9: repeated [change_intent] *)

(** C9, as amended.  For an agent with a neighbour, [change_intent] run
    twice in a row returns both times; the second run leaves the intent of
    the first exactly when no palette colour is free of the neighbours'
    colours (both runs then take the best of the neighbours' colours), and
    leaves a different intent whenever some palette colour is free. *)
Theorem change_intent_twice `{SetOrder} g colours_range me w :
  neighbors g me ≠ [] →
  let free := set_minus (py_set (Some <$> colours_range)) (perceive_environment g me w) in
  ∃ c1 c2,
    Async.change_intent g colours_range me w = Ok (tt, set_intended me c1 w)
    ∧ Async.change_intent g colours_range me (set_intended me c1 w)
      = Ok (tt, set_intended me c2 (set_intended me c1 w))
    ∧ (free = [] → c2 = c1)
    ∧ (free ≠ [] → c2 ≠ c1).
Proof.
  intros Hne free.
  destruct (change_intent_spec g colours_range me w Hne) as (c1 & Hrun1 & Hav1 & Hfb1).
  destruct (change_intent_spec g colours_range me (set_intended me c1 w) Hne)
    as (c2 & Hrun2 & Hav2 & Hfb2).
  change (perceive_environment g me (set_intended me c1 w))
    with (perceive_environment g me w) in Hav2, Hfb2.
  change (colour_scores (set_intended me c1 w)) with (colour_scores w) in Hfb2.
  assert (intended_colour (set_intended me c1 w) me = c1) as Hint
    by (simpl; apply fn_lookup_insert).
  rewrite Hint in Hav2, Hfb2. fold free in Hav1, Hfb1, Hav2, Hfb2.
  exists c1, c2. split; [done|]. split; [done|]. split.
  - intros Hfree. rewrite Hfree in Hfb1, Hfb2.
    destruct (Hfb1 eq_refl) as [Hm1 _]. destruct (Hfb2 eq_refl) as [Hm2 _]. congruence.
  - intros Hfree.
    destruct (decide (set_minus free [intended_colour w me] = [])) as [He1|Hn1].
    + destruct (Hfb1 He1) as [_ Hc1].
      assert (c1 ∉ free) as Hc1free.
      { unfold free. rewrite elem_of_set_minus. tauto. }
      assert (set_minus free [c1] ≠ []) as Hn2.
      { destruct free as [|x free'] eqn:Hf; [done|]. intros Hnil.
        assert (x ∈ set_minus (x :: free') [c1]) as Hx.
        { apply elem_of_set_minus. split; [left|].
          intros Hx%list_elem_of_singleton. subst x. apply Hc1free. left. }
        rewrite Hnil in Hx. by apply not_elem_of_nil in Hx. }
      specialize (Hav2 Hn2). apply elem_of_set_minus in Hav2 as [Hc2 _].
      intros ->. done.
    + specialize (Hav1 Hn1). apply elem_of_set_minus in Hav1 as [Hc1 _].
      destruct (decide (set_minus free [c1] = [])) as [He2|Hn2].
      * destruct (Hfb2 He2) as [_ Hc2]. intros ->.
        unfold free in Hc1. apply elem_of_set_minus in Hc1 as [_ Hc1]. done.
      * specialize (Hav2 Hn2). apply elem_of_set_minus in Hav2 as [_ Hc2].
        intros ->. apply Hc2. left.
Qed.

(** C9, counterexample.  Colours 0 and 1 are free for node 1 of a
    two-node path whose other end holds colour 2: a first [change_intent]
    moves the intent from 0 to 1, a second one moves it back to 0. *)
Lemma change_intent_not_idempotent :
  let w := world_of (colours_of [Some 2; None]) (colours_of [None; Some 0])
                    (zero_scores [0; 1; 2]) in
  match Async.change_intent (H := listing_order) path2 [0; 1; 2] 1 w with
  | Ok (_, w1) =>
      intended_colour w1 1 = Some 1
      ∧ match Async.change_intent (H := listing_order) path2 [0; 1; 2] 1 w1 with
        | Ok (_, w2) => intended_colour w2 1 = Some 0
        | Raise _ => False
        end
  | Raise _ => False
  end.
Proof. vm_compute. split; reflexivity. Qed.

(** *** The decision step of the negotiating agent *)

(** The loop of [colour_negotiation] returns the first of the best
    assessed choices, whatever [random.choice] drew. *)
Lemma negotiation_loop_spec (score : Colour → Z) (l : list Colour) (m : Z) (opt : Colour) :
  score opt = m →
  let r := Negotiate.negotiation_loop score l (Some m) opt in
  (r = opt ∨ r ∈ l) ∧ m ≤ score r ∧ ∀ c, c ∈ l → score c ≤ score r.
Proof.
  revert m opt. induction l as [|c l IH]; intros m opt Hm; simpl.
  - split; [by left|]. split; [lia|]. intros c Hc. by apply not_elem_of_nil in Hc.
  - case_bool_decide as Hlt.
    + destruct (IH (score c) c eq_refl) as (Hr & Hle & Hmax).
      split; [right; destruct Hr as [-> | Hr]; [left | by right]|].
      split; [lia|]. intros c' [-> | Hc']%elem_of_cons; [done | by apply Hmax].
    + destruct (IH m opt Hm) as (Hr & Hle & Hmax).
      split; [destruct Hr as [-> | Hr]; [by left | right; by right]|].
      split; [done|]. intros c' [-> | Hc']%elem_of_cons; [lia | by apply Hmax].
Qed.

Lemma colour_negotiation_nil g me w :
  Negotiate.colour_negotiation g me [] w = Raise IndexError.
Proof. reflexivity. Qed.

Lemma colour_negotiation_ok g me (choices : list Colour) w :
  choices ≠ [] →
  ∃ c, Negotiate.colour_negotiation g me choices w = Ok (c, set_rng (λ i, rng w (S i)) w)
       ∧ c ∈ choices
       ∧ ∀ c', c' ∈ choices →
           Negotiate.assess_colour g (colour_scores w) me c'
           ≤ Negotiate.assess_colour g (colour_scores w) me c.
Proof.
  destruct choices as [|c0 rest]; [done|]. intros _.
  unfold Negotiate.colour_negotiation, random_choice. munfold. cbn [Negotiate.negotiation_loop].
  set (score := Negotiate.assess_colour g (colour_scores w) me).
  destruct (negotiation_loop_spec score rest (score c0) c0 eq_refl) as (Hr & Hle & Hmax).
  exists (Negotiate.negotiation_loop score rest (Some (score c0)) c0).
  split; [reflexivity|]. split.
  - destruct Hr as [-> | Hr]; [left | by right].
  - intros c' [-> | Hc']%elem_of_cons; [done | by apply Hmax].
Qed.

(** With no candidate left the agent takes the best assessed of the
    colours it perceives, and reports success. *)
Lemma negotiate_decide_fallback `{SetOrder} g colours_range me ncs w :
  Negotiate.available_colours colours_range ncs (colour w me) = [] →
  ncs ≠ [] →
  ∃ c, Negotiate.decide_new_colour g colours_range me ncs w
       = Ok (true, set_colour me c (set_rng (λ i, rng w (S i)) w))
     ∧ c ∈ ncs
     ∧ ∀ c', c' ∈ ncs →
         Negotiate.assess_colour g (colour_scores w) me c'
         ≤ Negotiate.assess_colour g (colour_scores w) me c.
Proof.
  intros Hav Hncs.
  destruct (colour_negotiation_ok g me ncs w Hncs) as (c & Hrun & Hc & Hmax).
  exists c. split; [|done].
  unfold Negotiate.decide_new_colour. munfold. rewrite Hav. cbn. by rewrite Hrun.
Qed.

Lemma negotiate_decide_fallback_raises `{SetOrder} g colours_range me w :
  Negotiate.available_colours colours_range [] (colour w me) = [] →
  Negotiate.decide_new_colour g colours_range me [] w = Raise IndexError.
Proof.
  intros Hav. unfold Negotiate.decide_new_colour. munfold. by rewrite Hav.
Qed.

(** Every member of the candidate set is a palette colour. *)
Lemma available_colours_elem colours_range ncs own (c : Colour) :
  c ∈ Negotiate.available_colours colours_range ncs own ↔
  (∃ k, c = Some k ∧ k ∈ colours_range) ∧ (c ∉ ncs) ∧ (c ≠ own).
Proof.
  unfold Negotiate.available_colours.
  rewrite !elem_of_set_minus, elem_of_py_set_palette, list_elem_of_singleton. tauto.
Qed.

(** With a candidate left, an agent that is unset or shares its colour
    with a neighbour commits the best assessed candidate and updates that
    colour's score, which fails when the colour has no entry. *)
Lemma negotiate_decide_change `{SetOrder} g colours_range me ncs w :
  let own := colour w me in
  Negotiate.available_colours colours_range ncs own ≠ [] →
  own ∈ ncs ∨ own = None →
  ∃ c, c ∈ Negotiate.available_colours colours_range ncs own
     ∧ let w1 := set_colour me c (set_intended me c (set_rng (λ i, rng w (S i)) w)) in
       Negotiate.decide_new_colour g colours_range me ncs w
       = match colour_scores w !! c with
         | Some v =>
             Ok (true,
                 set_scores (<[c := v + (if some_neighbour_has (colour w1) c
                                              (neighbors g me) then -10 else 10)]>
                               (colour_scores w)) w1)
         | None => Raise KeyError
         end.
Proof.
  intros own Hav Hown.
  destruct (colour_negotiation_ok g me
              (set_list (Negotiate.available_colours colours_range ncs own)) w)
    as (c & Hrun & Hc & _); [intros Hnil; apply (proj1 (set_list_nil _)) in Hnil; exact (Hav Hnil)|].
  apply (proj1 (set_list_elem _ _)) in Hc. exists c. split; [exact Hc|].
  unfold Negotiate.decide_new_colour. munfold. fold own.
  rewrite bool_decide_eq_false_2 by done.
  assert (bool_decide (own ∈ ncs) || bool_decide (own = None) = true) as ->.
  { destruct Hown as [Ho|Ho]; [rewrite (bool_decide_eq_true_2 _ Ho) | rewrite (bool_decide_eq_true_2 _ Ho)];
      [done | apply orb_true_r]. }
  rewrite Hrun. cbn -[some_neighbour_has].
  rewrite orb_true_r.
  unfold Negotiate.update_colour_score, sb_add. munfold. cbn -[some_neighbour_has].
  rewrite fn_lookup_insert.
  destruct (some_neighbour_has _ _ _); cbn; by destruct (colour_scores w !! c).
Qed.

(** An agent that is set and shares its colour with no neighbour keeps it
    when a candidate is left. *)
Lemma negotiate_decide_keep `{SetOrder} g colours_range me ncs w :
  let own := colour w me in
  Negotiate.available_colours colours_range ncs own ≠ [] →
  own ∉ ncs → own ≠ None →
  Negotiate.decide_new_colour g colours_range me ncs w = Ok (true, w).
Proof.
  intros own Hav Hin Hset. unfold Negotiate.decide_new_colour. munfold. fold own.
  by rewrite !bool_decide_eq_false_2 by done.
Qed.

(** *** C10: the negotiating agent never reports failure *)

Lemma negotiate_decide_cases `{SetOrder} g colours_range me ncs w :
  let available := Negotiate.available_colours colours_range ncs (colour w me) in
  (available = [] ∧ ncs = []
   ∧ Negotiate.decide_new_colour g colours_range me ncs w = Raise IndexError)
  ∨ (∃ c, c ∈ available ∧ colour_scores w !! c = None
          ∧ Negotiate.decide_new_colour g colours_range me ncs w = Raise KeyError)
  ∨ ∃ w', Negotiate.decide_new_colour g colours_range me ncs w = Ok (true, w').
Proof.
  intros available.
  destruct (decide (available = [])) as [Hav|Hav].
  - destruct (decide (ncs = [])) as [->|Hncs].
    + left. split; [done|]. split; [done|]. by apply negotiate_decide_fallback_raises.
    + destruct (negotiate_decide_fallback g colours_range me ncs w Hav Hncs) as (c & -> & _).
      right; right. by eexists.
  - destruct (decide (colour w me ∈ ncs ∨ colour w me = None)) as [Hown|Hown].
    + destruct (negotiate_decide_change g colours_range me ncs w Hav Hown) as (c & Hc & ->).
      destruct (colour_scores w !! c) eqn:Hsc; [right; right; by eexists|].
      right; left. by exists c.
    + right; right. exists w. apply negotiate_decide_keep; [done|tauto..].
Qed.

Lemma negotiate_decide_never_false `{SetOrder} g colours_range me ncs w :
  never_false (Negotiate.decide_new_colour g colours_range me ncs w).
Proof.
  destruct (negotiate_decide_cases g colours_range me ncs w)
    as [(_ & _ & ->)|[(c & _ & _ & ->)|[w' ->]]]; simpl; auto.
Qed.

Lemma negotiate_round_never_false `{SetOrder} g colours_range ns w :
  never_false (Negotiate.decision_round g colours_range ns w).
Proof.
  revert w. induction ns as [|n ns IH]; intros w; simpl; [done|].
  munfold.
  destruct (negotiate_decide_cases g colours_range n (perceive_environment g n w) w)
    as [(_ & _ & ->)|[(c & _ & _ & ->)|[w' ->]]]; simpl; auto.
Qed.

(** The score board keeps its keys through a decision. *)
Lemma scores_cover_insert (colours_range : list Z) (sb : gmap Colour Z) (c : Colour) (v : Z) :
  scores_cover colours_range sb → scores_cover colours_range (<[c := v]> sb).
Proof.
  intros Hcov k Hk. destruct (decide (c = Some k)) as [->|Hne].
  - rewrite lookup_insert_eq. by eexists.
  - rewrite lookup_insert_ne by done. by apply Hcov.
Qed.

(** An agent that perceives a neighbour, or has a candidate, decides
    without raising when every palette colour has a score. *)
Lemma negotiate_decide_returns `{SetOrder} g colours_range me ncs w :
  ncs ≠ [] ∨ Negotiate.available_colours colours_range ncs (colour w me) ≠ [] →
  scores_cover colours_range (colour_scores w) →
  ∃ w', Negotiate.decide_new_colour g colours_range me ncs w = Ok (true, w')
        ∧ scores_cover colours_range (colour_scores w').
Proof.
  intros Hsome Hcov.
  destruct (decide (Negotiate.available_colours colours_range ncs (colour w me) = []))
    as [Hav|Hav].
  - destruct Hsome as [Hncs|?]; [|done].
    destruct (negotiate_decide_fallback g colours_range me ncs w Hav Hncs) as (c & -> & _).
    by eexists.
  - destruct (decide (colour w me ∈ ncs ∨ colour w me = None)) as [Hown|Hown].
    + destruct (negotiate_decide_change g colours_range me ncs w Hav Hown) as (c & Hc & ->).
      apply available_colours_elem in Hc as ((k & -> & Hk) & _).
      destruct (Hcov k Hk) as [v ->]. eexists. split; [done|].
      by apply scores_cover_insert.
    + exists w. split; [|done]. apply negotiate_decide_keep; [done|tauto..].
Qed.

Lemma negotiate_round_returns `{SetOrder} g colours_range ns w :
  (∀ n, n ∈ ns → neighbors g n ≠ []) →
  scores_cover colours_range (colour_scores w) →
  ∃ w', Negotiate.decision_round g colours_range ns w = Ok (true, w').
Proof.
  revert w. induction ns as [|n ns IH]; intros w Hnb Hcov; simpl.
  - by exists w.
  - munfold.
    destruct (negotiate_decide_returns g colours_range n (perceive_environment g n w) w)
      as (w' & -> & Hcov'); [|done|].
    + left. unfold perceive_environment.
      specialize (Hnb n (list_elem_of_here _ _)). by destruct (neighbors g n).
    + apply IH; [|done]. intros m Hm. apply Hnb. by right.
Qed.



(** *** The decision step of the random agent *)

Lemma random_decide_no_candidates `{SetOrder} colours_range me ncs w :
  let own := colour w me in
  set_minus (set_minus (py_set (Some <$> colours_range)) ncs) [own] = [] →
  RandomAgent.decide_new_colour colours_range me ncs w
  = Ok (negb (bool_decide (own ∈ ncs) || bool_decide (own = None)), w).
Proof.
  intros own Hav. unfold RandomAgent.decide_new_colour. munfold. fold own. rewrite Hav.
  by destruct (bool_decide (own ∈ ncs) || bool_decide (own = None)).
Qed.

Lemma random_decide_keep `{SetOrder} colours_range me ncs w :
  colour w me ∉ ncs → colour w me ≠ None →
  RandomAgent.decide_new_colour colours_range me ncs w = Ok (true, w).
Proof.
  intros Hin Hset. unfold RandomAgent.decide_new_colour. munfold.
  by rewrite !bool_decide_eq_false_2 by done.
Qed.

Lemma random_choice_elem {A : Type} (l : list A) w x w' :
  random_choice l w = Ok (x, w') → x ∈ l ∧ w' = set_rng (λ i, rng w (S i)) w.
Proof.
  unfold random_choice. destruct l as [|a l]; [done|].
  set (k := a :: l). intros Heq.
  assert (x = nth (rng w 0%nat mod length k)%nat k a
          ∧ w' = set_rng (λ i, rng w (S i)) w) as [-> ->] by (by inversion Heq).
  split; [|done].
  apply list_elem_of_In, nth_In, Nat.mod_upper_bound. done.
Qed.

(** Whatever the random agent returns, it commits nothing or one of its
    candidates. *)
Lemma random_decide_cases `{SetOrder} colours_range me ncs w b w' :
  RandomAgent.decide_new_colour colours_range me ncs w = Ok (b, w') →
  w' = w
  ∨ ∃ c, c ∈ set_minus (set_minus (py_set (Some <$> colours_range)) ncs) [colour w me]
         ∧ w' = set_colour me c (set_rng (λ i, rng w (S i)) w).
Proof.
  unfold RandomAgent.decide_new_colour. munfold.
  destruct (bool_decide (colour w me ∈ ncs) || bool_decide (colour w me = None));
    [|intros [= _ <-]; by left].
  case_bool_decide; [intros [= _ <-]; by left|].
  destruct (random_choice _ w) as [[c w1]|e] eqn:Hch; [|done].
  apply random_choice_elem in Hch as [Hc ->]. cbn. intros [= _ <-].
  right. exists c. split; [|done]. by apply (proj1 (set_list_elem _ _)).
Qed.

(** *** The decision step of the concurrent agent *)

Lemma score_keys_ok (sb : gmap Colour Z) (l : list Colour) :
  (∀ c, c ∈ l → is_Some (sb !! c)) →
  ∃ ks, Async.score_keys sb l = Ok ks ∧ ks.*2 = l.
Proof.
  induction l as [|c l IH]; intros Hall; simpl; [by exists []|].
  destruct (Hall c) as [v Hv]; [left|]. unfold sb_index. rewrite Hv.
  destruct IH as (ks & -> & Hks); [intros c' Hc'; apply Hall; by right|].
  eexists. split; [done|]. rewrite fmap_cons. by f_equal.
Qed.

Lemma score_keys_inv (sb : gmap Colour Z) (l : list Colour) ks :
  Async.score_keys sb l = Ok ks →
  ks.*2 = l ∧ ∀ c, c ∈ l → is_Some (sb !! c).
Proof.
  revert ks. induction l as [|c l IH]; intros ks; simpl.
  - intros [= <-]. split; [done|]. intros c Hc. by apply not_elem_of_nil in Hc.
  - unfold sb_index. destruct (sb !! c) as [v|] eqn:Hv; [|done].
    destruct (Async.score_keys sb l) as [ks'|] eqn:Hks; [|done].
    intros [= <-]. destruct (IH ks' eq_refl) as [Hsnd Hall].
    split; [rewrite fmap_cons; by f_equal|].
    intros c' [->|Hc']%elem_of_cons; [by eexists | by apply Hall].
Qed.

Lemma insert_desc_perm x l : Async.insert_desc x l ≡ₚ x :: l.
Proof.
  induction l as [|y l IH]; simpl; [done|].
  case_bool_decide; [done|]. rewrite IH. apply perm_swap.
Qed.

Lemma sorted_desc_perm l : Async.sorted_desc l ≡ₚ l.
Proof.
  induction l as [|x l IH]; simpl; [done|].
  rewrite insert_desc_perm. by rewrite IH.
Qed.

(** [best_colour] raises nothing when its choices are scored and not
    empty, and returns one of them without touching the state. *)
Lemma best_colour_ok (l : list Colour) w :
  l ≠ [] → (∀ c, c ∈ l → is_Some (colour_scores w !! c)) →
  ∃ c, Async.best_colour l w = Ok (c, w) ∧ c ∈ l.
Proof.
  intros Hne Hall. unfold Async.best_colour.
  destruct (score_keys_ok (colour_scores w) l Hall) as (ks & -> & Hks).
  pose proof (sorted_desc_perm ks) as Hperm.
  destruct (Async.sorted_desc ks) as [|kc rest] eqn:Hsort.
  - apply Permutation_nil_l in Hperm. subst ks. by destruct l.
  - exists kc.2. split; [done|]. rewrite <- Hks.
    apply list_elem_of_fmap. exists kc. split; [done|]. rewrite <- Hperm. left.
Qed.

Lemma best_colour_inv (l : list Colour) w c w' :
  Async.best_colour l w = Ok (c, w') →
  w' = w ∧ c ∈ l ∧ is_Some (colour_scores w !! c).
Proof.
  unfold Async.best_colour.
  destruct (Async.score_keys (colour_scores w) l) as [ks|] eqn:Hks; [|done].
  apply score_keys_inv in Hks as [Hsnd Hall].
  pose proof (sorted_desc_perm ks) as Hperm.
  destruct (Async.sorted_desc ks) as [|kc rest]; [done|].
  intros [= <- <-]. split; [done|].
  assert (kc.2 ∈ l) as Hin.
  { rewrite <- Hsnd. apply list_elem_of_fmap. exists kc. split; [done|].
    rewrite <- Hperm. left. }
  split; [done | by apply Hall].
Qed.

(** A decision of the concurrent agent that returns has made [best] the
    intent and the colour of the agent, where [best] is a free palette
    colour if there is one and a neighbour's colour if not; no other agent
    is touched. *)
Lemma async_decide_inv `{SetOrder} g colours_range me ncs w w' :
  Async.decide_new_colour g colours_range me ncs w = Ok (tt, w') →
  let free := set_minus (py_set (Some <$> colours_range)) ncs in
  ∃ best, (if decide (free = []) then best ∈ ncs else best ∈ free)
          ∧ colour w' me = best ∧ intended_colour w' me = best
          ∧ (∀ n, n ≠ me → colour w' n = colour w n).
Proof.
  intros Hrun free. unfold Async.decide_new_colour in Hrun. munfold. fold free in Hrun.
  destruct ((if bool_decide (free = []) then Async.best_colour ncs
             else Async.best_colour (set_list free)) w) as [[best w1]|e] eqn:Hbest; [|done].
  assert (w1 = w ∧ (if decide (free = []) then best ∈ ncs else best ∈ free)) as [-> Hin].
  { destruct (decide (free = [])) as [Hf|Hf].
    - rewrite bool_decide_eq_true_2 in Hbest by done.
      by apply best_colour_inv in Hbest as (-> & Hin & _).
    - rewrite bool_decide_eq_false_2 in Hbest by done.
      apply best_colour_inv in Hbest as (-> & Hin & _).
      split; [done|]. by apply (proj1 (set_list_elem _ _)). }
  exists best. split; [done|]. cbn in Hrun.
  destruct (decide (best = colour w me)) as [Heq|Hneq].
  - rewrite bool_decide_eq_false_2 in Hrun by (intros Hn; by apply Hn).
    injection Hrun as <-. cbn. by rewrite fn_lookup_insert.
  - rewrite bool_decide_eq_true_2 in Hrun by done.
    unfold Async.update_colour_score, sb_add in Hrun. munfold. cbn in Hrun.
    destruct (some_neighbour_has _ _ _);
      cbn [colour_scores set_colour set_intended] in Hrun;
      destruct (colour_scores w !! best); try done;
      injection Hrun as <-; cbn; rewrite !fn_lookup_insert;
      (split; [done|]; split; [done|]; intros n Hn; by rewrite fn_lookup_insert_ne).
Qed.

(** With no free palette colour, an agent whose neighbours all hold set,
    scored colours takes one of them. *)
Lemma async_decide_fallback `{SetOrder} g colours_range me ncs w :
  set_minus (py_set (Some <$> colours_range)) ncs = [] →
  ncs ≠ [] → (∀ c, c ∈ ncs → is_Some (colour_scores w !! c)) →
  ∃ w', Async.decide_new_colour g colours_range me ncs w = Ok (tt, w')
        ∧ colour w' me ∈ ncs.
Proof.
  intros Hfree Hncs Hall.
  destruct (best_colour_ok ncs w Hncs Hall) as (best & Hbest & Hin).
  assert (∃ w', Async.decide_new_colour g colours_range me ncs w = Ok (tt, w')) as [w' Hrun].
  { unfold Async.decide_new_colour. munfold. rewrite Hfree. cbn. rewrite Hbest. cbn.
    case_bool_decide; [|by eexists].
    unfold Async.update_colour_score, sb_add. munfold. cbn.
    destruct (Hall best Hin) as [v Hv].
    destruct (some_neighbour_has _ _ _);
      cbn [colour_scores set_colour set_intended]; rewrite Hv; by eexists. }
  exists w'. split; [done|].
  destruct (async_decide_inv g colours_range me ncs w w' Hrun) as (b & Hb & <- & _).
  by rewrite decide_True in Hb.
Qed.

(** *** C1: what an agent without candidates returns *)

(** C1, as amended.  With an empty candidate set, the negotiating agent
    that perceives at least one neighbour colour commits the best assessed
    of the perceived colours, draws once from the random source, leaves the
    score board alone and returns [True]; the random agent commits nothing,
    and returns [False] exactly when its colour is unset or shared with a
    neighbour.  The amended claim reads this for an agent whose colour is
    unset or shared with a neighbour; the statement does not need that. *)
Theorem empty_candidates_outcome `{SetOrder} g colours_range me ncs w :
  Negotiate.available_colours colours_range ncs (colour w me) = [] →
  (ncs ≠ [] →
   ∃ c, Negotiate.decide_new_colour g colours_range me ncs w
        = Ok (true, set_colour me c (set_rng (λ i, rng w (S i)) w))
      ∧ c ∈ ncs
      ∧ ∀ c', c' ∈ ncs →
          Negotiate.assess_colour g (colour_scores w) me c'
          ≤ Negotiate.assess_colour g (colour_scores w) me c)
  ∧ RandomAgent.decide_new_colour colours_range me ncs w
    = Ok (negb (bool_decide (colour w me ∈ ncs) || bool_decide (colour w me = None)), w).
Proof.
  intros Hav. split.
  - intros Hncs. by apply negotiate_decide_fallback.
  - by apply random_decide_no_candidates.
Qed.

(** C1, counterexample.  Both ends of a two-node path hold the only
    palette colour.  Node 0 has no candidate; the negotiating agent takes
    its neighbour's colour and returns [True], not [False]. *)
Lemma fallback_reports_success :
  let w := world_of (colours_of [Some 0; Some 0]) (colours_of []) (zero_scores [0]) in
  let ncs := perceive_environment path2 0 w in
  Negotiate.available_colours [0] ncs (colour w 0) = []
  ∧ match Negotiate.decide_new_colour (H := listing_order) path2 [0] 0 ncs w with
    | Ok (b, w') => b = true ∧ colour w' 0 = Some 0
    | Raise _ => False
    end.
Proof. vm_compute. repeat split; reflexivity. Qed.

(** *** C6: the colour held after a decision without candidates *)

(** C6, as amended.  Take an agent that perceives at least one neighbour
    colour, none of them unset.  With an empty candidate set the
    negotiating agent returns holding one of the perceived colours, and so
    does the concurrent agent when no palette colour is free and the
    perceived colours all have a score.  The random agent has no fallback:
    with an empty candidate set it returns with the state as it was.  The
    amended claim reads the part on the negotiating agent for an agent whose
    colour is unset or shared with a neighbour; the statement does not need
    that. *)
Theorem fallback_progress `{SetOrder} g colours_range me ncs w :
  ncs ≠ [] → None ∉ ncs →
  (Negotiate.available_colours colours_range ncs (colour w me) = [] →
   ∃ w', Negotiate.decide_new_colour g colours_range me ncs w = Ok (true, w')
         ∧ colour w' me ∈ ncs ∧ colour w' me ≠ None)
  ∧ (set_minus (py_set (Some <$> colours_range)) ncs = [] →
     (∀ c, c ∈ ncs → is_Some (colour_scores w !! c)) →
     ∃ w', Async.decide_new_colour g colours_range me ncs w = Ok (tt, w')
           ∧ colour w' me ∈ ncs ∧ colour w' me ≠ None)
  ∧ (Negotiate.available_colours colours_range ncs (colour w me) = [] →
     ∃ b, RandomAgent.decide_new_colour colours_range me ncs w = Ok (b, w)).
Proof.
  intros Hncs Hnone. split; [|split].
  - intros Hav.
    destruct (negotiate_decide_fallback g colours_range me ncs w Hav Hncs) as (c & -> & Hc & _).
    eexists. split; [done|]. cbn. rewrite fn_lookup_insert. split; [done|].
    intros ->. done.
  - intros Hfree Hall.
    destruct (async_decide_fallback g colours_range me ncs w Hfree Hncs Hall) as (w' & -> & Hc).
    exists w'. split; [done|]. split; [done|]. intros Heq. by rewrite Heq in Hc.
  - intros Hav. eexists. by apply random_decide_no_candidates.
Qed.

(** C6, counterexample.  Node 1 of a two-node path is unset and its
    neighbour holds the only palette colour: the random agent has no
    candidate, returns [False] and stays unset. *)
Lemma random_agent_stays_unset :
  let w := world_of (colours_of [Some 0; None]) (colours_of []) (zero_scores [0]) in
  let ncs := perceive_environment path2 1 w in
  Negotiate.available_colours [0] ncs (colour w 1) = []
  ∧ match RandomAgent.decide_new_colour (H := listing_order) [0] 1 ncs w with
    | Ok (b, w') => b = false ∧ colour w' 1 = None
    | Raise _ => False
    end.
Proof. vm_compute. repeat split; reflexivity. Qed.

(** The fallback of the negotiating agent takes an unset colour when that
    is the best assessed of the perceived ones: node 0 holds the only
    palette colour and its neighbour is unset. *)
Lemma negotiating_fallback_can_unset :
  let w := world_of (colours_of [Some 0; None]) (colours_of []) (zero_scores [0]) in
  let ncs := perceive_environment path2 0 w in
  Negotiate.available_colours [0] ncs (colour w 0) = []
  ∧ match Negotiate.decide_new_colour (H := listing_order) path2 [0] 0 ncs w with
    | Ok (b, w') => b = true ∧ colour w' 0 = None
    | Raise _ => False
    end.
Proof. vm_compute. repeat split; reflexivity. Qed.

(** *** C5: palette containment *)

Lemma create_agents_contained stored colours_range w :
  palette_contained colours_range (create_agents stored colours_range w).
Proof.
  intros n. cbn. unfold initial_agent_colour. case_bool_decide; simpl; done.
Qed.

Lemma perceived_in_palette g colours_range me w (c : Colour) :
  palette_contained colours_range w →
  c ∈ perceive_environment g me w → in_palette colours_range c.
Proof.
  intros Hw (n & -> & _)%list_elem_of_fmap. apply Hw.
Qed.

Lemma set_colour_contained colours_range me (c : Colour) w :
  palette_contained colours_range w → in_palette colours_range c →
  palette_contained colours_range (set_colour me c w).
Proof.
  intros Hw Hc n. cbn. destruct (decide (n = me)) as [->|Hn].
  - by rewrite fn_lookup_insert.
  - rewrite fn_lookup_insert_ne by done. apply Hw.
Qed.

Lemma candidate_in_palette colours_range ncs own (c : Colour) :
  c ∈ Negotiate.available_colours colours_range ncs own → in_palette colours_range c.
Proof. intros ((k & -> & Hk) & _)%available_colours_elem. done. Qed.

Lemma negotiate_decide_contained `{SetOrder} g colours_range me ncs w :
  palette_contained colours_range w →
  (∀ c, c ∈ ncs → in_palette colours_range c) →
  holds_after (λ _ w', palette_contained colours_range w')
              (Negotiate.decide_new_colour g colours_range me ncs w).
Proof.
  intros Hw Hncs.
  destruct (decide (Negotiate.available_colours colours_range ncs (colour w me) = []))
    as [Hav|Hav].
  - destruct (decide (ncs = [])) as [->|Hne].
    + by rewrite negotiate_decide_fallback_raises.
    + destruct (negotiate_decide_fallback g colours_range me ncs w Hav Hne) as (c & -> & Hc & _).
      cbn. apply (set_colour_contained _ _ _ (set_rng _ w)); [done | by apply Hncs].
  - destruct (decide (colour w me ∈ ncs ∨ colour w me = None)) as [Hown|Hown].
    + destruct (negotiate_decide_change g colours_range me ncs w Hav Hown) as (c & Hc & ->).
      destruct (colour_scores w !! c); [|done]. cbn.
      apply (set_colour_contained _ _ _ (set_intended me c (set_rng _ w))); [done|].
      by eapply candidate_in_palette.
    + rewrite negotiate_decide_keep; [done..|tauto|tauto].
Qed.

(** The invariant holds after every prefix of a round: [ns] is any list of
    nodes still to decide. *)
Lemma negotiate_round_contained `{SetOrder} g colours_range ns w :
  palette_contained colours_range w →
  holds_after (λ _ w', palette_contained colours_range w')
              (Negotiate.decision_round g colours_range ns w).
Proof.
  revert w. induction ns as [|n ns IH]; intros w Hw; simpl; [done|].
  munfold.
  pose proof (negotiate_decide_contained g colours_range n
                (perceive_environment g n w) w Hw) as Hstep.
  destruct (Negotiate.decide_new_colour g colours_range n _ w) as [[[] w']|e]; [| |done].
  - apply IH, Hstep. intros c. by apply perceived_in_palette.
  - apply Hstep. intros c. by apply perceived_in_palette.
Qed.

Lemma random_decide_contained `{SetOrder} colours_range me ncs w :
  palette_contained colours_range w →
  holds_after (λ _ w', palette_contained colours_range w')
              (RandomAgent.decide_new_colour colours_range me ncs w).
Proof.
  intros Hw.
  destruct (RandomAgent.decide_new_colour colours_range me ncs w) as [[b w']|e] eqn:Hrun;
    [|done].
  apply random_decide_cases in Hrun as [->|(c & Hc & ->)]; [done|]. cbn.
  apply (set_colour_contained _ _ _ (set_rng _ w)); [done|].
  by eapply candidate_in_palette.
Qed.

Lemma random_round_contained `{SetOrder} g colours_range ns w :
  palette_contained colours_range w →
  holds_after (λ _ w', palette_contained colours_range w')
              (RandomAgent.decision_round g colours_range ns w).
Proof.
  revert w. induction ns as [|n ns IH]; intros w Hw; simpl; [done|].
  munfold.
  pose proof (random_decide_contained colours_range n
                (perceive_environment g n w) w Hw) as Hstep.
  destruct (RandomAgent.decide_new_colour colours_range n _ w) as [[[] w']|e]; [| |done].
  - by apply IH.
  - done.
Qed.

Lemma async_decide_contained `{SetOrder} g colours_range me w :
  palette_contained colours_range w →
  holds_after (λ _ w', palette_contained colours_range w')
    (Async.decide_new_colour g colours_range me (perceive_environment g me w) w).
Proof.
  intros Hw.
  destruct (Async.decide_new_colour g colours_range me _ w) as [[[] w']|e] eqn:Hrun; [|done].
  apply async_decide_inv in Hrun as (best & Hbest & Hme & _ & Hothers).
  intros n. destruct (decide (n = me)) as [->|Hn].
  - rewrite Hme. destruct (decide (_ = [])).
    + by eapply perceived_in_palette.
    + apply elem_of_set_minus in Hbest as [(k & -> & Hk)%elem_of_py_set_palette _]. done.
  - rewrite Hothers by done. apply Hw.
Qed.

Lemma async_decide_phase_contained `{SetOrder} g colours_range ns w :
  palette_contained colours_range w →
  holds_after (λ _ w', palette_contained colours_range w')
              (Async.decide_phase g colours_range ns w).
Proof.
  revert w. induction ns as [|n ns IH]; intros w Hw; simpl; [done|].
  munfold.
  pose proof (async_decide_contained g colours_range n w Hw) as Hstep.
  destruct (Async.decide_new_colour g colours_range n _ w) as [[[] w']|e]; [|done].
  by apply IH.
Qed.

Lemma change_intent_colour `{SetOrder} g colours_range me w :
  holds_after (λ _ w', colour w' = colour w ∧ colour_scores w' = colour_scores w)
              (Async.change_intent g colours_range me w).
Proof.
  unfold Async.change_intent.
  destruct (if bool_decide _ then _ else _); done.
Qed.

Lemma negotiate_intent_colour `{SetOrder} g colours_range me nb theirs w :
  holds_after (λ _ w', colour w' = colour w ∧ colour_scores w' = colour_scores w)
              (Async.negotiate_intent g colours_range me nb theirs w).
Proof.
  unfold Async.negotiate_intent.
  case_bool_decide; [|done].
  destruct (sb_index _ _); [|done]. destruct (sb_index _ _); [|done].
  destruct (_ || _); apply change_intent_colour.
Qed.

(** X17.  Containment under a palette that stays as it is.  Agents are
    created with a stored colour outside the palette turned into unset.  In
    both sequential variants every agent's colour is unset or a palette
    colour after any number [k] of decisions of a round, and when
    [simulate_colouring] returns.  In the concurrent variant a decision,
    and so the decisions of all the agents, keep every agent's colour unset
    or in the palette if it was so before, and an intent change or a
    negotiation writes no committed colour. *)
Theorem palette_containment `{SetOrder} g stored colours_range me nb theirs k w :
  let start := create_agents stored colours_range w in
  (∀ n, colour start n = if decide (stored n ∈ colours_range) then Some (stored n) else None)
  ∧ palette_contained colours_range start
  ∧ holds_after (λ _ w', palette_contained colours_range w')
                (Negotiate.decision_round g colours_range (take k (nodes g)) start)
  ∧ holds_after (λ _ w', palette_contained colours_range w')
                (Negotiate.simulate_colouring g stored colours_range w)
  ∧ holds_after (λ _ w', palette_contained colours_range w')
                (RandomAgent.decision_round g colours_range (take k (nodes g)) start)
  ∧ holds_after (λ _ w', palette_contained colours_range w')
                (RandomAgent.simulate_colouring g stored colours_range w)
  ∧ (palette_contained colours_range w →
     holds_after (λ _ w', palette_contained colours_range w')
       (Async.decide_new_colour g colours_range me (perceive_environment g me w) w)
     ∧ holds_after (λ _ w', palette_contained colours_range w')
         (Async.decide_phase g colours_range (nodes g) w))
  ∧ holds_after (λ _ w', colour w' = colour w ∧ colour_scores w' = colour_scores w)
                (Async.change_intent g colours_range me w)
  ∧ holds_after (λ _ w', colour w' = colour w ∧ colour_scores w' = colour_scores w)
                (Async.negotiate_intent g colours_range me nb theirs w).
Proof.
  intros start.
  split. { intros n. cbn. unfold initial_agent_colour. by repeat case_decide. }
  split; [apply create_agents_contained|].
  split. { apply negotiate_round_contained, create_agents_contained. }
  split. { apply negotiate_round_contained, create_agents_contained. }
  split. { apply random_round_contained, create_agents_contained. }
  split. { apply random_round_contained, create_agents_contained. }
  split.
  { intros Hw. split; [by apply async_decide_contained|].
    by apply async_decide_phase_contained. }
  split; [apply change_intent_colour | apply negotiate_intent_colour].
Qed.

(** C5.  A centre with six leaves, palette 0..5, every stored colour in
    the palette, so every agent is created with its colour in the palette.
    The iteration of the concurrent variant first removes colour 0 from the
    palette and turns no agent's colour into unset, as creation would: the
    first leaf still holds 0.  The centre then finds no free colour among
    1..5 and takes the best scored of its neighbours' colours, the removed
    colour 0.  When the decisions of the iteration are over it holds a
    colour outside the active palette.  The sequential variants create the
    agents anew with the palette of the round, which turns the first leaf's
    colour 0 into unset, and end the round inside the palette. *)
Lemma removed_colour_committed :
  let stored := stored_of [1; 0; 1; 2; 3; 4; 5] in
  let w0 := world_of (λ _, None) (λ _, None) (zero_scores [0; 1; 2; 3; 4; 5]) in
  let w := create_agents stored [0; 1; 2; 3; 4; 5] w0 in
  palette_contained [0; 1; 2; 3; 4; 5] w
  ∧ (∃ g' w', Async.iteration_decisions (H := listing_order) mret star6 [0; 1; 2; 3; 4; 5] w
              = Ok (([1; 2; 3; 4; 5], g'), w')
            ∧ colour w' 0 = Some 0
            ∧ ¬ palette_contained [1; 2; 3; 4; 5] w')
  ∧ colour (create_agents stored [1; 2; 3; 4; 5] w0) 1 = None
  ∧ holds_after (λ _ w', palette_contained [1; 2; 3; 4; 5] w')
                (Negotiate.simulate_colouring (H := listing_order) star6 stored
                                              [1; 2; 3; 4; 5] w0)
  ∧ holds_after (λ _ w', palette_contained [1; 2; 3; 4; 5] w')
                (RandomAgent.simulate_colouring (H := listing_order) star6 stored
                                                [1; 2; 3; 4; 5] w0).
Proof.
  intros stored w0 w. split; [apply create_agents_contained|]. split.
  - eexists _, _. split; [vm_compute; reflexivity|]. split; [reflexivity|].
    intros Hc. specialize (Hc 0).
    assert (in_palette [1; 2; 3; 4; 5] (Some 0)) as Hin by exact Hc.
    simpl in Hin. revert Hin. apply (bool_decide_unpack (0 ∉ [1; 2; 3; 4; 5])).
    vm_compute. exact I.
  - split; [reflexivity|].
    split; [apply negotiate_round_contained | apply random_round_contained];
      apply create_agents_contained.
Qed.

(** *** C4: the conflict count *)

Lemma simple_graph_nodup g : simple_graph g → NoDup (nodes g).
Proof. by intros [? _]. Qed.

Lemma simple_graph_neighbors g u :
  simple_graph g → u ∈ nodes g →
  NoDup (neighbors g u)
  ∧ ∀ v, v ∈ neighbors g u → v ∈ nodes g ∧ u ∈ neighbors g v ∧ u ≠ v.
Proof.
  intros [_ Hall] Hu. rewrite list.Forall_forall in Hall.
  destruct (Hall u Hu) as [Hnd Hnb]. rewrite list.Forall_forall in Hnb. done.
Qed.

Lemma elem_of_directed_conflicts below g col (a b : Node) :
  (a, b) ∈ directed_conflicts below g col ↔
  a ∈ nodes g ∧ b ∈ neighbors g a ∧ on_side below a b ∧ col a = col b.
Proof.
  unfold directed_conflicts. rewrite list_elem_of_bind. split.
  - intros (u & Hin & Hu). apply list_elem_of_fmap in Hin as (v & [= -> ->] & Hv).
    apply list_elem_of_filter in Hv. tauto.
  - intros (Ha & Hb & Hord & Hcol). exists a. split; [|done].
    apply list_elem_of_fmap. exists b. split; [done|]. by apply list_elem_of_filter.
Qed.

Lemma directed_conflicts_nodup below g col :
  simple_graph g → NoDup (directed_conflicts below g col).
Proof.
  intros Hg. unfold directed_conflicts. apply NoDup_bind.
  - intros u1 u2 [a b] _ _ (v1 & [= -> ->] & _)%list_elem_of_fmap
      (v2 & [= -> _] & _)%list_elem_of_fmap. done.
  - intros u Hu. apply NoDup_fmap_2; [by intros v1 v2 [= ->]|].
    apply list.NoDup_filter. by apply simple_graph_neighbors.
  - by apply simple_graph_nodup.
Qed.

(** Adjacency is symmetric, so the pairs met downwards are the pairs met
    upwards, reversed. *)
Lemma directed_conflicts_swap g col :
  simple_graph g →
  (λ e : Node * Node, (e.2, e.1)) <$> directed_conflicts true g col
  ≡ₚ directed_conflicts false g col.
Proof.
  intros Hg. apply NoDup_Permutation.
  - apply NoDup_fmap_2; [|by apply directed_conflicts_nodup].
    intros [a1 b1] [a2 b2] [= -> ->]. done.
  - by apply directed_conflicts_nodup.
  - intros [a b]. rewrite list_elem_of_fmap, elem_of_directed_conflicts. split.
    + intros ([b' a'] & [= -> ->] & Hin). apply elem_of_directed_conflicts in Hin
        as (Hb & Ha & Hord & Hcol).
      destruct (simple_graph_neighbors g b' Hg Hb) as [_ Hsym].
      destruct (Hsym a' Ha) as (? & ? & ?). done.
    + intros (Ha & Hb & Hord & Hcol). exists (b, a). split; [done|].
      apply elem_of_directed_conflicts.
      destruct (simple_graph_neighbors g a Hg Ha) as [_ Hsym].
      destruct (Hsym b Hb) as (? & ? & ?). done.
Qed.

Lemma length_bind_sum {A B : Type} (f : A → list B) (l : list A) :
  length (l ≫= f) = sum_list_with (λ x, length (f x)) l.
Proof.
  induction l as [|x l IH]; [done|].
  rewrite bind_cons, length_app.
  change (sum_list_with (λ x, length (f x)) (x :: l))
    with (length (f x) + sum_list_with (λ x, length (f x)) l)%nat.
  by rewrite IH.
Qed.

Lemma sum_list_with_add {A : Type} (f f1 f2 : A → nat) (l : list A) :
  (∀ x, x ∈ l → f x = (f1 x + f2 x)%nat) →
  sum_list_with f l = (sum_list_with f1 l + sum_list_with f2 l)%nat.
Proof.
  induction l as [|x l IH]; intros Hf; [done|].
  change (sum_list_with f (x :: l)) with (f x + sum_list_with f l)%nat.
  change (sum_list_with f1 (x :: l)) with (f1 x + sum_list_with f1 l)%nat.
  change (sum_list_with f2 (x :: l)) with (f2 x + sum_list_with f2 l)%nat.
  rewrite (Hf x) by left. rewrite IH by (intros y Hy; apply Hf; by right). lia.
Qed.

(** A node that is not its own neighbour meets each equally coloured
    neighbour either above or below itself. *)
Lemma matching_neighbours_split g col u :
  u ∉ neighbors g u →
  matching_neighbours g col u
  = Nat.add (length (filter (λ v, on_side false u v ∧ col u = col v) (neighbors g u)))
            (length (filter (λ v, on_side true u v ∧ col u = col v) (neighbors g u))).
Proof.
  unfold matching_neighbours. induction (neighbors g u) as [|v l IH]; intros Hu; [done|].
  apply not_elem_of_cons in Hu as [Hne Hu]. specialize (IH Hu).
  rewrite !filter_cons.
  repeat case_decide; simpl; rewrite IH;
    first [ reflexivity
          | rewrite Nat.add_succ_r; reflexivity
          | exfalso; unfold on_side in *;
            first [ lia | tauto | assert (u < v ∨ v < u) as [?|?] by lia; tauto ] ].
Qed.

Lemma matching_neighbours_sum g col :
  simple_graph g →
  sum_list_with (matching_neighbours g col) (nodes g)
  = (length (directed_conflicts false g col) + length (directed_conflicts true g col))%nat.
Proof.
  intros Hg. unfold directed_conflicts. rewrite !length_bind_sum.
  apply sum_list_with_add. intros u Hu. rewrite !length_fmap.
  apply matching_neighbours_split. intros Hin.
  destruct (simple_graph_neighbors g u Hg Hu) as [_ Hnb].
  by destruct (Hnb u Hin) as (_ & _ & ?).
Qed.

(** The upward pairs are the edges whose ends have equal colours. *)
Lemma filter_pairs_from (P : Node * Node → Prop) `{∀ e, Decision (P e)}
    (Q : Node → Prop) `{∀ v, Decision (Q v)} (u : Node) (l : list Node) :
  filter P ((λ v, (u, v)) <$> filter Q l)
  = (λ v, (u, v)) <$> filter (λ v, Q v ∧ P (u, v)) l.
Proof.
  induction l as [|v l IH]; [done|].
  rewrite !(filter_cons _ v).
  destruct (decide (Q v)) as [Hq|Hq]; [rewrite fmap_cons, filter_cons|];
    repeat case_decide; try tauto; rewrite ?fmap_cons, IH; done.
Qed.

Lemma same_colour_edges g col :
  filter (same_colour col) (edges g) = directed_conflicts false g col.
Proof.
  unfold edges, directed_conflicts.
  induction (nodes g) as [|u l IH]; [done|].
  rewrite !bind_cons, list.filter_app, IH. f_equal.
  apply filter_pairs_from.
Qed.

(** C4, as amended.  On a networkx graph without self-loops,
    [count_conflicts] is the number of edges whose two ends hold equal
    colours, each edge counted once, where two unset colours are equal
    colours. *)
Theorem count_conflicts_edges g col :
  simple_graph g →
  count_conflicts g col = length (filter (same_colour col) (edges g)).
Proof.
  intros Hg. unfold count_conflicts.
  rewrite matching_neighbours_sum, same_colour_edges by done.
  pose proof (Permutation_length (directed_conflicts_swap g col Hg)) as Hlen.
  rewrite length_fmap in Hlen. rewrite Hlen.
  set (n := length (directed_conflicts false g col)).
  replace (n + n)%nat with (n * 2)%nat by lia. by apply Nat.div_mul.
Qed.

(** C4, counterexample.  Both ends of the one edge of a two-node path are
    unset: the code counts one conflict, the specification counts none. *)
Lemma unset_neighbours_counted :
  count_conflicts path2 (colours_of [None; None]) = 1%nat
  ∧ count_conflicts_spec path2 (colours_of [None; None]) = 0%nat.
Proof. split; vm_compute; reflexivity. Qed.

(** *** C7 and C8: a round on a graph that is already properly coloured *)

(** The random agent leaves a proper colouring alone: when every node still
    to decide is set and shares its colour with no neighbour, the round
    returns [True] and changes nothing. *)
Lemma random_round_fixed_point `{SetOrder} g colours_range ns w :
  (∀ n, n ∈ ns → colour w n ≠ None ∧ colour w n ∉ perceive_environment g n w) →
  RandomAgent.decision_round g colours_range ns w = Ok (true, w).
Proof.
  induction ns as [|n ns IH]; intros Hfix; [done|].
  simpl. munfold.
  destruct (Hfix n) as [Hset Hfree]; [left|].
  rewrite random_decide_keep by done.
  apply IH. intros m Hm. apply Hfix. by right.
Qed.

Lemma random_simulate_fixed_point `{SetOrder} g stored colours_range w :
  let start := create_agents stored colours_range w in
  (∀ n, n ∈ nodes g →
        colour start n ≠ None ∧ colour start n ∉ perceive_environment g n start) →
  RandomAgent.simulate_colouring g stored colours_range w = Ok (true, start).
Proof.
  intros start Hfix. unfold RandomAgent.simulate_colouring. munfold.
  by apply random_round_fixed_point.
Qed.

(** So does the negotiating agent as long as every node still to decide
    has a candidate left; it is the node without a candidate that gives up
    a colour no neighbour shares. *)
Lemma negotiate_round_fixed_point `{SetOrder} g colours_range ns w :
  (∀ n, n ∈ ns →
        colour w n ≠ None ∧ (colour w n ∉ perceive_environment g n w)
        ∧ Negotiate.available_colours colours_range (perceive_environment g n w)
            (colour w n) ≠ []) →
  Negotiate.decision_round g colours_range ns w = Ok (true, w).
Proof.
  induction ns as [|n ns IH]; intros Hfix; [done|].
  simpl. munfold.
  destruct (Hfix n) as (Hset & Hfree & Hav); [left|].
  rewrite negotiate_decide_keep by done.
  apply IH. intros m Hm. apply Hfix. by right.
Qed.

(** On the alternately coloured 4-cycle the random agent keeps every
    colour, and no conflict is counted. *)
Lemma random_round_cycle4 :
  let w0 := world_of (λ _, None) (λ _, None) (zero_scores [0; 1]) in
  match RandomAgent.simulate_colouring (H := listing_order) cycle4
          (stored_of [0; 1; 0; 1]) [0; 1] w0 with
  | Ok (b, w') =>
      b = true
      ∧ colour w' <$> [0; 1; 2; 3] = [Some 0; Some 1; Some 0; Some 1]
      ∧ count_conflicts cycle4 (colour w') = 0%nat
  | Raise _ => False
  end.
Proof. vm_compute. repeat split; reflexivity. Qed.

(** C7, at the failing input.  The two ends of a path hold the two palette
    colours 0 and 1: every agent is set and there is no conflict.  In the
    round of the negotiating variant node 0 finds its candidate set empty
    and takes its neighbour's colour 1 before it looks at whether its own
    colour conflicts; node 1 then moves to colour 0.  Both agents have
    changed colour. *)
Theorem negotiating_round_moves_fixed_point :
  let w0 := world_of (λ _, None) (λ _, None) (zero_scores [0; 1]) in
  let start := create_agents (stored_of [0; 1]) [0; 1] w0 in
  colour start <$> [0; 1] = [Some 0; Some 1]
  ∧ count_conflicts path2 (colour start) = 0%nat
  ∧ match Negotiate.simulate_colouring (H := listing_order) path2
            (stored_of [0; 1]) [0; 1] w0 with
    | Ok (b, w') => b = true ∧ colour w' <$> [0; 1] = [Some 1; Some 0]
    | Raise _ => False
    end.
Proof. vm_compute. repeat split; reflexivity. Qed.

(** C8, at the failing input.  On the cycle 0-1-2-3-0 with palette 0, 1
    and colours 0, 1, 0, 1 the round of the negotiating variant ends with
    colours 1, 1, 1, 0 and two conflicts: every node finds its candidate set
    empty or its colour taken, starting with node 0, which gives up its
    conflict-free colour for its neighbours' colour. *)
Theorem negotiating_round_cycle4 :
  let w0 := world_of (λ _, None) (λ _, None) (zero_scores [0; 1]) in
  let start := create_agents (stored_of [0; 1; 0; 1]) [0; 1] w0 in
  colour start <$> [0; 1; 2; 3] = [Some 0; Some 1; Some 0; Some 1]
  ∧ count_conflicts cycle4 (colour start) = 0%nat
  ∧ match Negotiate.simulate_colouring (H := listing_order) cycle4
            (stored_of [0; 1; 0; 1]) [0; 1] w0 with
    | Ok (b, w') =>
        colour w' <$> [0; 1; 2; 3] = [Some 1; Some 1; Some 1; Some 0]
        ∧ count_conflicts cycle4 (colour w') = 2%nat
    | Raise _ => False
    end.
Proof. vm_compute. repeat split; reflexivity. Qed.

(** *** The theorems at concrete inputs *)


(** C9 on the two-node path: colours 0 and 1 are free for node 1. *)
Lemma change_intent_twice_witness :
  let w := world_of (colours_of [Some 2; None]) (colours_of [None; Some 0])
                    (zero_scores [0; 1; 2]) in
  ∃ c1 c2,
    Async.change_intent (H := listing_order) path2 [0; 1; 2] 1 w
    = Ok (tt, set_intended 1 c1 w)
    ∧ c2 ≠ c1.
Proof.
  intros w.
  destruct (change_intent_twice (H := listing_order) path2 [0; 1; 2] 1 w)
    as (c1 & c2 & Hrun & _ & _ & Hne).
  - vm_compute. discriminate.
  - exists c1, c2. split; [exact Hrun|]. apply Hne. vm_compute. discriminate.
Defined.


(** C1 where both ends of the two-node path hold the only palette colour. *)
Lemma empty_candidates_outcome_witness :
  let w := world_of (colours_of [Some 0; Some 0]) (colours_of []) (zero_scores [0]) in
  (∃ c, Negotiate.decide_new_colour (H := listing_order) path2 [0] 0 [Some 0] w
        = Ok (true, set_colour 0 c (set_rng (λ i, rng w (S i)) w)))
  ∧ RandomAgent.decide_new_colour (H := listing_order) [0] 0 [Some 0] w = Ok (false, w).
Proof.
  intros w.
  destruct (empty_candidates_outcome (H := listing_order) path2 [0] 0 [Some 0] w)
    as [Hneg Hrand].
  - vm_compute. reflexivity.
  - split; [|exact Hrand].
    destruct Hneg as (c & Hrun & _); [discriminate|]. by exists c.
Defined.

(** C6 at the same input: the agent ends with its neighbour's colour. *)
Lemma fallback_progress_witness :
  let w := world_of (colours_of [Some 0; Some 0]) (colours_of []) (zero_scores [0]) in
  (∃ w', Negotiate.decide_new_colour (H := listing_order) path2 [0] 0 [Some 0] w
         = Ok (true, w') ∧ colour w' 0 ≠ None)
  ∧ (∃ w', Async.decide_new_colour (H := listing_order) path2 [0] 0 [Some 0] w
           = Ok (tt, w') ∧ colour w' 0 ≠ None).
Proof.
  intros w.
  destruct (fallback_progress (H := listing_order) path2 [0] 0 [Some 0] w)
    as (Hneg & Hasync & _).
  - discriminate.
  - intros Hin. apply list_elem_of_singleton in Hin. discriminate.
  - split.
    + destruct Hneg as (w' & Hrun & _ & Hset); [vm_compute; reflexivity|]. by exists w'.
    + destruct Hasync as (w' & Hrun & _ & Hset); [vm_compute; reflexivity| |by exists w'].
      intros c Hc. apply list_elem_of_singleton in Hc as ->. vm_compute. by eexists.
Defined.

(** X17: a decision of the concurrent agent from a state in the palette. *)
Lemma palette_containment_witness :
  let w := world_of (λ n, if bool_decide (n = 0) then Some 0 else Some 1) (λ _, None)
                    (zero_scores [0; 1]) in
  holds_after (λ _ w', palette_contained [0; 1] w')
    (Async.decide_new_colour (H := listing_order) path2 [0; 1] 0
       (perceive_environment path2 0 w) w).
Proof.
  intros w.
  refine (proj1 (proj1 (proj2 (proj2 (proj2 (proj2 (proj2 (proj2
    (palette_containment (H := listing_order) path2 (stored_of []) [0; 1] 0 1 None 0%nat w)
    )))))) _)).
  intros n. simpl. case_bool_decide; vm_compute.
  - left.
  - right. left.
Defined.

(** C4 on the 4-cycle coloured 0, 0, 1, unset: one conflicting edge. *)
Lemma count_conflicts_edges_witness :
  let col := colours_of [Some 0; Some 0; Some 1; None] in
  count_conflicts cycle4 col = length (filter (same_colour col) (edges cycle4))
  ∧ count_conflicts cycle4 col = 1%nat.
Proof.
  intros col. split; [|vm_compute; reflexivity].
  apply count_conflicts_edges.
  refine (bool_decide_unpack (simple_graph cycle4) _). vm_compute. exact I.
Defined.

(* ===================================================================== *)
(** ** Further properties of the rounds *)
(* ===================================================================== *)

(** *** Enough colours *)

(** A set with more members than two lists together has a member outside
    both. *)
Lemma set_minus_nonempty (s k1 k2 : list Colour) :
  NoDup s → (length k1 + length k2 < length s)%nat →
  set_minus (set_minus s k1) k2 ≠ [].
Proof.
  intros Hnd Hlen Hnil.
  assert (s ⊆+ k1 ++ k2) as Hsub.
  { apply NoDup_submseteq; [done|]. intros x Hx. apply elem_of_app.
    destruct (decide (x ∈ k1)) as [|Hk1]; [by left|].
    destruct (decide (x ∈ k2)) as [|Hk2]; [by right|]. exfalso.
    assert (x ∈ set_minus (set_minus s k1) k2) as Hin
      by (rewrite !elem_of_set_minus; done).
    rewrite Hnil in Hin. by apply not_elem_of_nil in Hin. }
  apply submseteq_length in Hsub. rewrite length_app in Hsub. clear -Hlen Hsub. lia.
Qed.

Lemma candidates_exist (colours_range : list Z) (ncs : list Colour) (own : Colour) :
  (length ncs + 1 < palette_size colours_range)%nat →
  Negotiate.available_colours colours_range ncs own ≠ [].
Proof.
  intros Hlen. unfold Negotiate.available_colours. unfold palette_size in Hlen.
  apply set_minus_nonempty; [apply NoDup_remove_dups | simpl; lia].
Qed.

Lemma free_colours_exist (colours_range : list Z) (ncs : list Colour) :
  (length ncs < palette_size colours_range)%nat →
  set_minus (py_set (Some <$> colours_range)) ncs ≠ [].
Proof.
  intros Hlen Hnil.
  apply (set_minus_nonempty (py_set (Some <$> colours_range)) ncs []);
    [apply NoDup_remove_dups | simpl; unfold palette_size in Hlen; lia |].
  rewrite Hnil. done.
Qed.

Lemma length_perceive g me w :
  length (perceive_environment g me w) = length (neighbors g me).
Proof. apply length_fmap. Qed.

(** *** Nodes that have found their colour *)

Lemma settled_incl g col l1 l2 :
  (∀ u, u ∈ l2 → u ∈ l1) → settled g col l1 → settled g col l2.
Proof. intros Hincl Hs u Hu. by apply Hs, Hincl. Qed.

Lemma settled_keep g col n decided :
  settled g col decided → col n ≠ None → col n ∉ col <$> neighbors g n →
  settled g col (n :: decided).
Proof.
  intros Hs Hset Hfree u [->|Hu]%elem_of_cons; [|by apply Hs].
  split; [done|]. intros v Hv Heq. apply Hfree. rewrite Heq.
  by apply list_elem_of_fmap_2.
Qed.

(** A node that takes a colour none of its neighbours holds disturbs no
    node that had found its colour: adjacency is symmetric. *)
Lemma settled_change g col n (c : Colour) decided :
  simple_graph g → n ∈ nodes g → (∀ u, u ∈ decided → u ∈ nodes g) →
  settled g col decided → c ≠ None → c ∉ col <$> neighbors g n →
  settled g (<[n := c]> col) (n :: decided).
Proof.
  intros Hg Hn Hdec Hs Hset Hfree u Hu.
  destruct (simple_graph_neighbors g n Hg Hn) as [_ Hnb].
  destruct (decide (u = n)) as [->|Hne].
  - rewrite fn_lookup_insert. split; [done|]. intros v Hv.
    destruct (Hnb v Hv) as (_ & _ & Hnv).
    rewrite fn_lookup_insert_ne by done. intros ->. apply Hfree.
    by apply list_elem_of_fmap_2.
  - apply elem_of_cons in Hu as [?|Hu]; [done|].
    destruct (Hs u Hu) as [Hu_set Hu_free].
    rewrite fn_lookup_insert_ne by done. split; [done|]. intros v Hv.
    destruct (decide (v = n)) as [->|Hvn].
    + rewrite fn_lookup_insert. intros Heq. apply Hfree. rewrite <- Heq.
      apply list_elem_of_fmap_2.
      destruct (simple_graph_neighbors g u Hg (Hdec u Hu)) as [_ Hnbu].
      by destruct (Hnbu n Hv) as (_ & ? & _).
    + rewrite fn_lookup_insert_ne by done. by apply Hu_free.
Qed.

Lemma settled_all g col :
  settled g col (nodes g) → proper_colouring g col ∧ all_set g col.
Proof.
  intros Hs. split.
  - intros u Hu v Hv. by apply (Hs u Hu).
  - intros u Hu. by apply (Hs u Hu).
Qed.

Lemma sum_list_with_zero {A : Type} (f : A → nat) (l : list A) :
  (∀ x, x ∈ l → f x = 0%nat) → sum_list_with f l = 0%nat.
Proof.
  induction l as [|x l IH]; intros Hf; [done|].
  change (sum_list_with f (x :: l)) with (f x + sum_list_with f l)%nat.
  rewrite (Hf x) by left. rewrite IH; [done|]. intros y Hy. apply Hf. by right.
Qed.

Lemma proper_no_conflicts g col :
  proper_colouring g col → count_conflicts g col = 0%nat.
Proof.
  intros Hp. unfold count_conflicts. rewrite sum_list_with_zero; [done|].
  intros u Hu. unfold matching_neighbours.
  induction (neighbors g u) as [|v l IH] eqn:Hl in Hp |- *; [done|].
  assert (∀ v', v' ∈ v :: l → col u ≠ col v') as Hne.
  { intros v' Hv'. apply (Hp u Hu). by rewrite Hl. }
  clear Hl Hp. induction l as [|v' l IHl] in v, Hne |- *.
  - rewrite filter_cons. case_decide as Heq; [|done]. by destruct (Hne v); [left|].
  - rewrite filter_cons. case_decide as Heq; [by destruct (Hne v); [left|]|].
    apply IHl. intros x Hx. apply Hne. by right.
Qed.

Lemma cons_app_incl (n : Node) (ns decided : list Node) (u : Node) :
  u ∈ (n :: ns) ++ decided → u ∈ ns ++ n :: decided.
Proof.
  change ((n :: ns) ++ decided) with (n :: (ns ++ decided)).
  intros [->|Hu]%elem_of_cons; apply elem_of_app.
  - right. left.
  - apply elem_of_app in Hu as [?|?]; [by left | right; by right].
Qed.

Lemma settled_ext g col1 col2 decided :
  (∀ n, col1 n = col2 n) → settled g col1 decided → settled g col2 decided.
Proof.
  intros Heq Hs u Hu. destruct (Hs u Hu) as [Hset Hfree]. rewrite <- !Heq.
  split; [done|]. intros v Hv. rewrite <- Heq. by apply Hfree.
Qed.

(** *** The round of the random agent *)

Lemma random_decide_true `{SetOrder} colours_range me ncs w w' :
  RandomAgent.decide_new_colour colours_range me ncs w = Ok (true, w') →
  (w' = w ∧ colour w me ≠ None ∧ colour w me ∉ ncs)
  ∨ ∃ c, c ∈ Negotiate.available_colours colours_range ncs (colour w me)
         ∧ w' = set_colour me c (set_rng (λ i, rng w (S i)) w).
Proof.
  unfold RandomAgent.decide_new_colour. munfold.
  destruct (decide (colour w me ∈ ncs ∨ colour w me = None)) as [Hown|Hown].
  - assert (bool_decide (colour w me ∈ ncs) || bool_decide (colour w me = None) = true) as ->.
    { destruct Hown as [Ho|Ho]; rewrite (bool_decide_eq_true_2 _ Ho);
        [done | apply orb_true_r]. }
    case_bool_decide; [done|].
    destruct (random_choice _ w) as [[c w1]|e] eqn:Hch; [|done].
    apply random_choice_elem in Hch as [Hc ->]. cbn. intros [= <-].
    right. exists c. split; [|done]. by apply (proj1 (set_list_elem _ _)).
  - rewrite !bool_decide_eq_false_2 by tauto. intros [= <-]. left.
    split; [done|]. tauto.
Qed.

Lemma random_decide_returns `{SetOrder} colours_range me ncs w :
  ∃ b w', RandomAgent.decide_new_colour colours_range me ncs w = Ok (b, w')
          ∧ (Negotiate.available_colours colours_range ncs (colour w me) ≠ [] → b = true).
Proof.
  unfold RandomAgent.decide_new_colour, Negotiate.available_colours. munfold.
  destruct (bool_decide (colour w me ∈ ncs) || bool_decide (colour w me = None));
    [|by eexists _, _].
  case_bool_decide as Hav; [by eexists _, _|].
  destruct (set_list _) as [|c l] eqn:Hl.
  - apply (proj1 (set_list_nil _)) in Hl. done.
  - unfold random_choice. cbn. by eexists _, _.
Qed.

Lemma random_round_returns `{SetOrder} g colours_range ns w :
  ∃ b w', RandomAgent.decision_round g colours_range ns w = Ok (b, w')
          ∧ ((∀ n, n ∈ ns → (length (neighbors g n) + 1 < palette_size colours_range)%nat) →
             b = true).
Proof.
  revert w. induction ns as [|n ns IH]; intros w; simpl; [by eexists _, _|].
  munfold.
  destruct (random_decide_returns colours_range n (perceive_environment g n w) w)
    as (b & w1 & -> & Hb).
  destruct b.
  - destruct (IH w1) as (b' & w' & -> & Hb'). exists b', w'. split; [done|].
    intros Hsize. apply Hb'. intros m Hm. apply Hsize. by right.
  - exists false, w1. split; [done|]. intros Hsize. apply Hb, candidates_exist.
    rewrite length_perceive. apply Hsize. left.
Qed.

Lemma random_round_settled `{SetOrder} g colours_range ns decided w w' :
  simple_graph g → (∀ n, n ∈ ns → n ∈ nodes g) → (∀ u, u ∈ decided → u ∈ nodes g) →
  settled g (colour w) decided →
  RandomAgent.decision_round g colours_range ns w = Ok (true, w') →
  settled g (colour w') (ns ++ decided).
Proof.
  intros Hg. revert decided w.
  induction ns as [|n ns IH]; intros decided w Hns Hdec Hs; simpl.
  - by intros [= <-].
  - munfold.
    destruct (RandomAgent.decide_new_colour colours_range n _ w) as [[[] w1]|e] eqn:Hstep;
      [|done..].
    intros Hrun.
    assert (settled g (colour w1) (n :: decided)) as Hs1.
    { apply random_decide_true in Hstep as [(-> & Hset & Hfree)|(c & Hc & ->)].
      - by apply settled_keep.
      - apply available_colours_elem in Hc as ((k & -> & _) & Hfree & _).
        apply settled_change; [done | apply Hns; left | done..]. }
    apply (IH (n :: decided) w1) in Hrun.
    + eapply settled_incl; [|exact Hrun]. apply cons_app_incl.
    + intros m Hm. apply Hns. by right.
    + intros u [->|Hu]%elem_of_cons; [apply Hns; left | by apply Hdec].
    + done.
Qed.

Ltac by_computation := refine (bool_decide_unpack _ _); vm_compute; exact I.

(** X1.  On a graph without self-loops, a round of the random variant that
    returns [True] has left a proper colouring: every agent is set, no
    agent shares its colour with a neighbour, and [count_conflicts] is 0. *)
Theorem random_round_true_is_proper `{SetOrder} g stored colours_range w w' :
  simple_graph g →
  RandomAgent.simulate_colouring g stored colours_range w = Ok (true, w') →
  proper_colouring g (colour w') ∧ all_set g (colour w')
  ∧ count_conflicts g (colour w') = 0%nat.
Proof.
  intros Hg Hrun. unfold RandomAgent.simulate_colouring in Hrun. munfold.
  apply (random_round_settled g colours_range (nodes g) []) in Hrun; try done.
  - rewrite app_nil_r in Hrun. apply settled_all in Hrun as [Hp Hset].
    split; [done|]. split; [done|]. by apply proper_no_conflicts.
  - intros u Hu. by apply not_elem_of_nil in Hu.
  - intros u Hu. by apply not_elem_of_nil in Hu.
Qed.

Lemma random_round_true_is_proper_witness :
  let w0 := world_of (λ _, None) (λ _, None) (zero_scores [0; 1]) in
  let w' := set_colour 0 (Some 1)
              (set_rng (λ i, rng w0 (S i)) (create_agents (stored_of [0; 0]) [0; 1] w0)) in
  proper_colouring path2 (colour w') ∧ all_set path2 (colour w')
  ∧ count_conflicts path2 (colour w') = 0%nat.
Proof.
  intros w0 w'.
  apply (random_round_true_is_proper (H := listing_order) path2 (stored_of [0; 0]) [0; 1] w0 w').
  - by_computation.
  - vm_compute. reflexivity.
Defined.

(** X2.  A round of the random variant never raises.  When the palette has
    more distinct colours than any node has neighbours plus one, it returns
    [True]. *)
Theorem random_round_enough_colours `{SetOrder} g stored colours_range w :
  ∃ b w', RandomAgent.simulate_colouring g stored colours_range w = Ok (b, w')
          ∧ ((∀ n, n ∈ nodes g →
                   (length (neighbors g n) + 1 < palette_size colours_range)%nat) →
             b = true).
Proof.
  unfold RandomAgent.simulate_colouring. munfold. apply random_round_returns.
Qed.

Lemma random_round_enough_colours_witness :
  let w0 := world_of (λ _, None) (λ _, None) (zero_scores [0; 1; 2]) in
  ∃ w', RandomAgent.simulate_colouring (H := listing_order) cycle4
          (stored_of [0; 0; 0; 0]) [0; 1; 2; 3] w0 = Ok (true, w').
Proof.
  intros w0.
  destruct (random_round_enough_colours (H := listing_order) cycle4
              (stored_of [0; 0; 0; 0]) [0; 1; 2; 3] w0) as (b & w' & Hrun & Hb).
  exists w'. rewrite Hrun. rewrite Hb; [reflexivity|].
  apply list.Forall_forall. by_computation.
Defined.

(** *** The round of the negotiating agent *)

Lemma negotiate_round_enough `{SetOrder} g colours_range ns decided w :
  simple_graph g → (∀ n, n ∈ ns → n ∈ nodes g) → (∀ u, u ∈ decided → u ∈ nodes g) →
  (∀ n, n ∈ ns → (length (neighbors g n) + 1 < palette_size colours_range)%nat) →
  scores_cover colours_range (colour_scores w) →
  settled g (colour w) decided →
  ∃ w', Negotiate.decision_round g colours_range ns w = Ok (true, w')
        ∧ settled g (colour w') (ns ++ decided)
        ∧ scores_cover colours_range (colour_scores w').
Proof.
  intros Hg. revert decided w.
  induction ns as [|n ns IH]; intros decided w Hns Hdec Hsize Hcov Hs; simpl.
  - by exists w.
  - munfold. set (ncs := perceive_environment g n w).
    assert (Negotiate.available_colours colours_range ncs (colour w n) ≠ []) as Hav.
    { apply candidates_exist. unfold ncs. rewrite length_perceive. apply Hsize. left. }
    assert (∃ w1, Negotiate.decide_new_colour g colours_range n ncs w = Ok (true, w1)
                  ∧ settled g (colour w1) (n :: decided)
                  ∧ scores_cover colours_range (colour_scores w1)) as (w1 & -> & Hs1 & Hcov1).
    { destruct (decide (colour w n ∈ ncs ∨ colour w n = None)) as [Hown|Hown].
      - destruct (negotiate_decide_change g colours_range n ncs w Hav Hown) as (c & Hc & ->).
        apply available_colours_elem in Hc as ((k & -> & Hk) & Hfree & _).
        destruct (Hcov k Hk) as [v ->]. eexists. split; [done|]. split.
        + cbn. apply settled_change; [done | apply Hns; left | done..].
        + by apply scores_cover_insert.
      - exists w. rewrite negotiate_decide_keep by tauto. split; [done|]. split; [|done].
        apply settled_keep; [done | tauto | tauto]. }
    destruct (IH (n :: decided) w1) as (w' & -> & Hs' & Hcov'); try done.
    + intros m Hm. apply Hns. by right.
    + intros u [->|Hu]%elem_of_cons; [apply Hns; left | by apply Hdec].
    + intros m Hm. apply Hsize. by right.
    + exists w'. split; [done|]. split; [|done].
      eapply settled_incl; [|exact Hs']. apply cons_app_incl.
Qed.

(** X3.  On a graph without self-loops, when the palette has more distinct
    colours than any node has neighbours plus one and every palette colour
    has a score, a round of the negotiating variant returns [True] and
    leaves a proper colouring: every agent set, no conflict. *)
Theorem negotiating_round_enough_colours `{SetOrder} g stored colours_range w :
  simple_graph g →
  (∀ n, n ∈ nodes g → (length (neighbors g n) + 1 < palette_size colours_range)%nat) →
  scores_cover colours_range (colour_scores w) →
  ∃ w', Negotiate.simulate_colouring g stored colours_range w = Ok (true, w')
        ∧ proper_colouring g (colour w') ∧ all_set g (colour w')
        ∧ count_conflicts g (colour w') = 0%nat.
Proof.
  intros Hg Hsize Hcov. unfold Negotiate.simulate_colouring. munfold.
  destruct (negotiate_round_enough g colours_range (nodes g) []
              (create_agents stored colours_range w)) as (w' & Hrun & Hs & _); try done.
  - intros u Hu. by apply not_elem_of_nil in Hu.
  - intros u Hu. by apply not_elem_of_nil in Hu.
  - exists w'. split; [done|]. rewrite app_nil_r in Hs.
    apply settled_all in Hs as [Hp Hset]. split; [done|]. split; [done|].
    by apply proper_no_conflicts.
Qed.

Lemma scores_cover_zero (colours : list Z) : scores_cover colours (zero_scores colours).
Proof.
  intros k Hk. unfold zero_scores. apply elem_of_dom. rewrite dom_list_to_map_L.
  apply elem_of_list_to_set. rewrite <- list_fmap_compose.
  apply list_elem_of_fmap. by exists k.
Qed.

Lemma negotiating_round_enough_colours_witness :
  let w0 := world_of (λ _, None) (λ _, None) (zero_scores [0; 1; 2; 3]) in
  ∃ w', Negotiate.simulate_colouring (H := listing_order) cycle4
          (stored_of [0; 0; 0; 0]) [0; 1; 2; 3] w0 = Ok (true, w')
        ∧ count_conflicts cycle4 (colour w') = 0%nat.
Proof.
  intros w0.
  destruct (negotiating_round_enough_colours (H := listing_order) cycle4
              (stored_of [0; 0; 0; 0]) [0; 1; 2; 3] w0) as (w' & Hrun & _ & _ & Hzero).
  - by_computation.
  - apply list.Forall_forall. by_computation.
  - apply scores_cover_zero.
  - exists w'. split; [exact Hrun | exact Hzero].
Defined.

Lemma negotiate_round_total `{SetOrder} g colours_range ns w :
  (2 ≤ palette_size colours_range)%nat →
  scores_cover colours_range (colour_scores w) →
  ∃ w', Negotiate.decision_round g colours_range ns w = Ok (true, w')
        ∧ scores_cover colours_range (colour_scores w').
Proof.
  intros Hsize. revert w. induction ns as [|n ns IH]; intros w Hcov; simpl.
  - by exists w.
  - munfold.
    destruct (negotiate_decide_returns g colours_range n (perceive_environment g n w) w)
      as (w1 & -> & Hcov1); [|done|by apply IH].
    destruct (perceive_environment g n w) as [|c l] eqn:Hncs; [right|by left].
    apply candidates_exist. simpl. lia.
Qed.

(** X4.  When the palette has at least two distinct colours and every
    palette colour has a score, [simulate_colouring] of the negotiating
    variant returns [True] on every graph: it raises nothing, isolated
    nodes included. *)
Theorem negotiating_round_returns `{SetOrder} g stored colours_range w :
  (2 ≤ palette_size colours_range)%nat →
  scores_cover colours_range (colour_scores w) →
  ∃ w', Negotiate.simulate_colouring g stored colours_range w = Ok (true, w')
        ∧ scores_cover colours_range (colour_scores w').
Proof.
  intros Hsize Hcov. unfold Negotiate.simulate_colouring. munfold.
  by apply negotiate_round_total.
Qed.

Lemma negotiating_round_returns_witness :
  let w0 := world_of (λ _, None) (λ _, None) (zero_scores [0; 1]) in
  ∃ w', Negotiate.simulate_colouring (H := listing_order) lone_node (stored_of [0]) [0; 1] w0
        = Ok (true, w').
Proof.
  intros w0.
  destruct (negotiating_round_returns (H := listing_order) lone_node (stored_of [0]) [0; 1] w0)
    as (w' & Hrun & _).
  - vm_compute. lia.
  - apply scores_cover_zero.
  - by exists w'.
Defined.

(** *** What [colour_negotiation] picks *)

Lemma negotiation_loop_first (score : Colour → Z) (l done : list Colour) (opt : Colour) :
  first_greatest score done opt →
  first_greatest score (done ++ l)
    (Negotiate.negotiation_loop score l (Some (score opt)) opt).
Proof.
  revert done opt. induction l as [|c l IH]; intros done opt Hfirst; simpl.
  - by rewrite app_nil_r.
  - replace (done ++ c :: l) with ((done ++ [c]) ++ l) by (by rewrite <- app_assoc).
    destruct Hfirst as (l1 & l2 & -> & Hl1 & Hl2).
    case_bool_decide as Hlt; apply IH.
    + exists (l1 ++ opt :: l2), []. split; [done|]. split.
      * intros x [Hx|[->|Hx]%elem_of_cons]%elem_of_app.
        -- specialize (Hl1 x Hx). lia.
        -- done.
        -- specialize (Hl2 x Hx). lia.
      * intros x Hx. by apply not_elem_of_nil in Hx.
    + exists l1, (l2 ++ [c]). split; [by rewrite <- app_assoc|]. split; [done|].
      intros x [Hx|Hx%list_elem_of_singleton]%elem_of_app; [by apply Hl2 | subst x; lia].
Qed.

Lemma first_greatest_shift (f1 f2 : Colour → Z) (l : list Colour) (c : Colour) :
  (∀ x y, f1 x - f2 x = f1 y - f2 y) →
  first_greatest f1 l c → first_greatest f2 l c.
Proof.
  intros Hshift (l1 & l2 & -> & Hl1 & Hl2). exists l1, l2. split; [done|]. split.
  - intros x Hx. specialize (Hl1 x Hx). specialize (Hshift x c). lia.
  - intros x Hx. specialize (Hl2 x Hx). specialize (Hshift x c). lia.
Qed.

(** X5.  [colour_negotiation] raises [IndexError] on no choices.  Otherwise
    it returns the first of the choices with the greatest score-board
    value: neither what [random.choice] drew nor the assessment against the
    neighbours changes the pick; only the random source has moved on. *)
Theorem colour_negotiation_first_greatest g me (choices : list Colour) w :
  (choices = [] → Negotiate.colour_negotiation g me choices w = Raise IndexError)
  ∧ (choices ≠ [] →
     ∃ c, Negotiate.colour_negotiation g me choices w
          = Ok (c, set_rng (λ i, rng w (S i)) w)
        ∧ first_greatest (sb_get (colour_scores w)) choices c).
Proof.
  split; [by intros ->|].
  destruct choices as [|c0 rest]; [done|]. intros _.
  set (score := Negotiate.assess_colour g (colour_scores w) me).
  exists (Negotiate.negotiation_loop score rest (Some (score c0)) c0).
  split; [reflexivity|].
  apply (first_greatest_shift score).
  - intros x y. apply assess_colour_shift.
  - apply (negotiation_loop_first score rest [c0] c0).
    exists [], []. split; [done|].
    split; intros x Hx; by apply not_elem_of_nil in Hx.
Qed.

Lemma colour_negotiation_first_greatest_witness :
  let w := world_of (λ _, None) (λ _, None) (zero_scores [0; 1]) in
  ∃ c, Negotiate.colour_negotiation path2 0 [Some 0; Some 1] w
       = Ok (c, set_rng (λ i, rng w (S i)) w)
     ∧ first_greatest (sb_get (colour_scores w)) [Some 0; Some 1] c.
Proof.
  intros w.
  apply (colour_negotiation_first_greatest path2 0 [Some 0; Some 1] w).
  discriminate.
Defined.

(** *** The score board through a round of the negotiating agent *)

Lemma some_neighbour_has_elem (col : Node → Colour) (c : Colour) (ns : list Node) :
  some_neighbour_has col c ns = true ↔ c ∈ col <$> ns.
Proof.
  induction ns as [|n ns IH]; cbn [some_neighbour_has].
  - split; [done|]. intros Hc. by apply elem_of_nil in Hc.
  - rewrite fmap_cons, elem_of_cons. case_bool_decide as Heq.
    + split; [intros _; by left | done].
    + rewrite IH. split; [by right | intros [?|?]; [congruence | done]].
Qed.

(** A decision of the negotiating agent leaves the score board alone or
    adds 10 to the score of the colour the agent has taken. *)
Lemma negotiate_decide_scores `{SetOrder} g colours_range me w b w' :
  me ∉ neighbors g me →
  Negotiate.decide_new_colour g colours_range me (perceive_environment g me w) w
  = Ok (b, w') →
  colour_scores w' = colour_scores w
  ∨ ∃ c v, colour w' me = c ∧ colour_scores w !! c = Some v
           ∧ colour_scores w' = <[c := v + 10]> (colour_scores w).
Proof.
  intros Hloop. set (ncs := perceive_environment g me w).
  destruct (decide (Negotiate.available_colours colours_range ncs (colour w me) = []))
    as [Hav|Hav].
  - destruct (decide (ncs = [])) as [Hncs|Hncs].
    + rewrite Hncs in *. by rewrite negotiate_decide_fallback_raises.
    + destruct (negotiate_decide_fallback g colours_range me ncs w Hav Hncs) as (c & -> & _).
      intros [= _ <-]. by left.
  - destruct (decide (colour w me ∈ ncs ∨ colour w me = None)) as [Hown|Hown].
    + destruct (negotiate_decide_change g colours_range me ncs w Hav Hown) as (c & Hc & ->).
      destruct (colour_scores w !! c) as [v|] eqn:Hv; [|done].
      assert (some_neighbour_has
                (colour (set_colour me c (set_intended me c (set_rng (λ i, rng w (S i)) w))))
                c (neighbors g me) = false) as ->.
      { apply not_true_is_false. rewrite some_neighbour_has_elem.
        intros (n & Hn & Hin)%list_elem_of_fmap.
        apply available_colours_elem in Hc as (_ & Hfree & _). apply Hfree.
        cbn in Hn. rewrite fn_lookup_insert_ne in Hn by (by intros ->).
        rewrite Hn. by apply list_elem_of_fmap_2. }
      intros [= _ <-]. right. exists c, v. cbn. by rewrite fn_lookup_insert.
    + rewrite negotiate_decide_keep by tauto. intros [= _ <-]. by left.
Qed.

Lemma negotiate_round_scores `{SetOrder} g colours_range ns w b w' :
  (∀ n, n ∈ ns → n ∉ neighbors g n) →
  Negotiate.decision_round g colours_range ns w = Ok (b, w') →
  (∀ c, is_Some (colour_scores w' !! c) ↔ is_Some (colour_scores w !! c))
  ∧ ∀ c, sb_get (colour_scores w) c ≤ sb_get (colour_scores w') c
         ≤ sb_get (colour_scores w) c + 10 * Z.of_nat (length ns).
Proof.
  revert w. induction ns as [|n ns IH]; intros w Hloop; simpl.
  - intros [= _ <-]. split; [done|]. intros c. lia.
  - munfold.
    destruct (Negotiate.decide_new_colour g colours_range n _ w) as [[b1 w1]|e] eqn:Hstep;
      [|done].
    assert ((∀ c, is_Some (colour_scores w1 !! c) ↔ is_Some (colour_scores w !! c))
            ∧ ∀ c, sb_get (colour_scores w) c ≤ sb_get (colour_scores w1) c
                   ≤ sb_get (colour_scores w) c + 10) as [Hkeys1 Hval1].
    { apply negotiate_decide_scores in Hstep as [->|(c & v & _ & Hv & ->)];
        [split; [done|intros c; lia] | | apply Hloop; left].
      split; intros c'; destruct (decide (c = c')) as [<-|Hne].
      - rewrite lookup_insert_eq, Hv. split; by eexists.
      - by rewrite lookup_insert_ne.
      - unfold sb_get. rewrite lookup_insert_eq, Hv. simpl. lia.
      - unfold sb_get. rewrite lookup_insert_ne by done. lia. }
    destruct b1.
    + intros Hrun. apply IH in Hrun as [Hkeys Hval]; [|intros m Hm; apply Hloop; by right].
      split; [intros c; by rewrite Hkeys|].
      intros c. specialize (Hval c). specialize (Hval1 c). lia.
    + intros [= _ <-]. split; [done|]. intros c. specialize (Hval1 c). lia.
Qed.

(** X6.  In a round of the negotiating variant on a graph without
    self-loops the penalty of [update_colour_score] is never applied: the
    score board keeps its keys, no score decreases, and each ends at most 10
    per node above where it started. *)
Theorem negotiating_scores_never_decrease `{SetOrder} g stored colours_range w b w' :
  (∀ n, n ∈ nodes g → n ∉ neighbors g n) →
  Negotiate.simulate_colouring g stored colours_range w = Ok (b, w') →
  (∀ c, is_Some (colour_scores w' !! c) ↔ is_Some (colour_scores w !! c))
  ∧ ∀ c, sb_get (colour_scores w) c ≤ sb_get (colour_scores w') c
         ≤ sb_get (colour_scores w) c + 10 * Z.of_nat (length (nodes g)).
Proof.
  intros Hloop Hrun. unfold Negotiate.simulate_colouring in Hrun. munfold.
  by apply negotiate_round_scores in Hrun.
Qed.

Lemma negotiating_scores_never_decrease_witness :
  let w0 := world_of (λ _, None) (λ _, None) (zero_scores [0; 1]) in
  ∃ b w', Negotiate.simulate_colouring (H := listing_order) path2 (stored_of [0; 0]) [0; 1] w0
          = Ok (b, w')
          ∧ ∀ c, sb_get (colour_scores w0) c ≤ sb_get (colour_scores w') c
                 ≤ sb_get (colour_scores w0) c + 10 * Z.of_nat (length (nodes path2)).
Proof.
  intros w0.
  assert (∃ b w', Negotiate.simulate_colouring (H := listing_order) path2
                    (stored_of [0; 0]) [0; 1] w0 = Ok (b, w')) as (b & w' & Hrun).
  { eexists _, _. lazy. reflexivity. }
  exists b, w'. split; [exact Hrun|].
  apply (negotiating_scores_never_decrease (H := listing_order) path2 (stored_of [0; 0])
           [0; 1] w0 b w'); [|exact Hrun].
  apply list.Forall_forall. by_computation.
Defined.

(** *** The decisions of the concurrent agent *)

(** What a decision of the concurrent agent that returns has done. *)
Lemma async_decide_full `{SetOrder} g colours_range me ncs w w' :
  Async.decide_new_colour g colours_range me ncs w = Ok (tt, w') →
  let free := set_minus (py_set (Some <$> colours_range)) ncs in
  ∃ best, (if decide (free = []) then best ∈ ncs else best ∈ free)
    ∧ ((best = colour w me ∧ w' = set_intended me best w)
       ∨ (best ≠ colour w me
          ∧ ∃ v, colour_scores w !! best = Some v
                 ∧ w' = set_scores
                          (<[best := v + (if some_neighbour_has (<[me := best]> (colour w)) best
                                               (neighbors g me) then -5 else 5)]>
                             (colour_scores w))
                          (set_colour me best (set_intended me best w)))).
Proof.
  intros Hrun free. unfold Async.decide_new_colour in Hrun. munfold. fold free in Hrun.
  destruct ((if bool_decide (free = []) then Async.best_colour ncs
             else Async.best_colour (set_list free)) w) as [[best w1]|e] eqn:Hbest; [|done].
  assert (w1 = w ∧ (if decide (free = []) then best ∈ ncs else best ∈ free)) as [-> Hin].
  { destruct (decide (free = [])) as [Hf|Hf].
    - rewrite bool_decide_eq_true_2 in Hbest by done.
      by apply best_colour_inv in Hbest as (-> & Hin & _).
    - rewrite bool_decide_eq_false_2 in Hbest by done.
      apply best_colour_inv in Hbest as (-> & Hin & _).
      split; [done|]. by apply (proj1 (set_list_elem _ _)). }
  exists best. split; [done|]. cbn in Hrun.
  destruct (decide (best = colour w me)) as [Heq|Hneq].
  - rewrite bool_decide_eq_false_2 in Hrun by (intros Hn; by apply Hn).
    injection Hrun as <-. by left.
  - rewrite bool_decide_eq_true_2 in Hrun by done. right. split; [done|].
    unfold Async.update_colour_score, sb_add in Hrun. munfold. cbn in Hrun.
    destruct (some_neighbour_has _ _ _);
      cbn [colour_scores set_colour set_intended] in Hrun;
      destruct (colour_scores w !! best) as [v|]; try done;
      injection Hrun as <-; by exists v.
Qed.

Lemma async_decide_returns `{SetOrder} g colours_range me ncs w :
  set_minus (py_set (Some <$> colours_range)) ncs ≠ [] →
  scores_cover colours_range (colour_scores w) →
  ∃ w', Async.decide_new_colour g colours_range me ncs w = Ok (tt, w').
Proof.
  intros Hfree Hcov. set (free := set_minus (py_set (Some <$> colours_range)) ncs) in *.
  assert (∀ c, c ∈ set_list free → is_Some (colour_scores w !! c)) as Hall.
  { intros c Hc. apply (proj1 (set_list_elem _ _)) in Hc.
    apply elem_of_set_minus in Hc as [(k & -> & Hk)%elem_of_py_set_palette _].
    by apply Hcov. }
  destruct (best_colour_ok (set_list free) w) as (best & Hbest & Hin); [|done|].
  { intros Hnil. apply (proj1 (set_list_nil _)) in Hnil. done. }
  unfold Async.decide_new_colour. munfold. fold free.
  rewrite bool_decide_eq_false_2 by done. rewrite Hbest. cbn.
  case_bool_decide; [|by eexists].
  unfold Async.update_colour_score, sb_add. munfold. cbn.
  destruct (Hall best Hin) as [v Hv].
  destruct (some_neighbour_has _ _ _);
    cbn [colour_scores set_colour set_intended]; rewrite Hv; by eexists.
Qed.

(** X7.  A decision of the concurrent agent, taken on the colours it
    perceives by an agent that is not its own neighbour, leaves the agent's
    committed colour equal to its intended colour.  The score board moves
    only when the colour has changed, and then only at the new colour: by
    +5 when a palette colour was free of the neighbours' colours, by -5 when
    the agent fell back on a neighbour's colour. *)
Theorem async_decide_score_update `{SetOrder} g colours_range me w w' :
  me ∉ neighbors g me →
  Async.decide_new_colour g colours_range me (perceive_environment g me w) w = Ok (tt, w') →
  let free := set_minus (py_set (Some <$> colours_range)) (perceive_environment g me w) in
  let best := colour w' me in
  intended_colour w' me = best
  ∧ (best = colour w me → colour_scores w' = colour_scores w)
  ∧ (best ≠ colour w me →
     ∃ v, colour_scores w !! best = Some v
          ∧ colour_scores w'
            = <[best := v + (if decide (free = []) then -5 else 5)]> (colour_scores w)).
Proof.
  intros Hloop Hrun free best.
  apply async_decide_full in Hrun as (b & Hin & Hcase). fold free in Hin.
  destruct Hcase as [[Heq ->]|(Hneq & v & Hv & ->)]; subst best; cbn.
  - rewrite fn_lookup_insert. split; [done|]. split; [done|]. intros Hne. congruence.
  - rewrite !fn_lookup_insert. split; [done|]. split; [done|]. intros _.
    exists v. split; [done|]. f_equal. f_equal.
    destruct (decide (free = [])) as [Hf|Hf].
    + assert (some_neighbour_has (<[me := b]> (colour w)) b (neighbors g me) = true) as ->;
        [|done].
      apply some_neighbour_has_elem.
      apply list_elem_of_fmap in Hin as (n & -> & Hn).
      apply list_elem_of_fmap. exists n. split; [|done].
      destruct (decide (n = me)) as [->|Hnm];
        [by rewrite fn_lookup_insert | by rewrite fn_lookup_insert_ne].
    + assert (some_neighbour_has (<[me := b]> (colour w)) b (neighbors g me) = false) as ->;
        [|done].
      apply not_true_is_false. rewrite some_neighbour_has_elem.
      intros (n & Hn & Hnin)%list_elem_of_fmap.
      apply elem_of_set_minus in Hin as [_ Hfree]. apply Hfree.
      rewrite fn_lookup_insert_ne in Hn by (by intros ->).
      rewrite Hn. by apply list_elem_of_fmap_2.
Qed.

Lemma async_decide_score_update_witness :
  let w := world_of (colours_of [Some 0; Some 0]) (λ _, None) (zero_scores [0; 1]) in
  ∃ w', Async.decide_new_colour (H := listing_order) path2 [0; 1] 0
          (perceive_environment path2 0 w) w = Ok (tt, w')
        ∧ intended_colour w' 0 = colour w' 0.
Proof.
  intros w.
  assert (∃ w', Async.decide_new_colour (H := listing_order) path2 [0; 1] 0
                  (perceive_environment path2 0 w) w = Ok (tt, w')) as (w' & Hrun).
  { eexists. lazy. reflexivity. }
  exists w'. split; [exact Hrun|].
  apply (async_decide_score_update (H := listing_order) path2 [0; 1] 0 w w'); [|exact Hrun].
  by_computation.
Defined.

Lemma async_phase_enough `{SetOrder} g colours_range ns decided w :
  simple_graph g → (∀ n, n ∈ ns → n ∈ nodes g) → (∀ u, u ∈ decided → u ∈ nodes g) →
  (∀ n, n ∈ ns → (length (neighbors g n) < palette_size colours_range)%nat) →
  scores_cover colours_range (colour_scores w) →
  settled g (colour w) decided →
  ∃ w', Async.decide_phase g colours_range ns w = Ok (tt, w')
        ∧ settled g (colour w') (ns ++ decided)
        ∧ scores_cover colours_range (colour_scores w').
Proof.
  intros Hg. revert decided w.
  induction ns as [|n ns IH]; intros decided w Hns Hdec Hsize Hcov Hs; simpl.
  - by exists w.
  - munfold. set (ncs := perceive_environment g n w).
    assert (set_minus (py_set (Some <$> colours_range)) ncs ≠ []) as Hfree.
    { apply free_colours_exist. unfold ncs. rewrite length_perceive. apply Hsize. left. }
    destruct (async_decide_returns g colours_range n ncs w Hfree Hcov) as [w1 Hstep].
    rewrite Hstep.
    apply async_decide_full in Hstep as (best & Hin & Hcase).
    rewrite decide_False in Hin by done.
    apply elem_of_set_minus in Hin as [(k & -> & Hk)%elem_of_py_set_palette Hout].
    assert (settled g (colour w1) (n :: decided) ∧ scores_cover colours_range (colour_scores w1))
      as [Hs1 Hcov1].
    { destruct Hcase as [[Heq ->]|(Hneq & v & Hv & ->)]; cbn.
      - split; [|done]. apply settled_keep; [done | by rewrite <- Heq | by rewrite <- Heq].
      - split; [|by apply scores_cover_insert].
        apply settled_change; [done | apply Hns; left | done..]. }
    destruct (IH (n :: decided) w1) as (w' & -> & Hs' & Hcov'); try done.
    + intros m Hm. apply Hns. by right.
    + intros u [->|Hu]%elem_of_cons; [apply Hns; left | by apply Hdec].
    + intros m Hm. apply Hsize. by right.
    + exists w'. split; [done|]. split; [|done].
      eapply settled_incl; [|exact Hs']. apply cons_app_incl.
Qed.

(** X8.  On a graph without self-loops, when the palette has more distinct
    colours than any node has neighbours and every palette colour has a
    score, the decisions of an iteration of the concurrent variant raise
    nothing and leave a proper colouring, whatever the colours before:
    every agent set, no conflict. *)
Theorem async_decisions_enough_colours `{SetOrder} g colours_range w :
  simple_graph g →
  (∀ n, n ∈ nodes g → (length (neighbors g n) < palette_size colours_range)%nat) →
  scores_cover colours_range (colour_scores w) →
  ∃ w', Async.decide_phase g colours_range (nodes g) w = Ok (tt, w')
        ∧ proper_colouring g (colour w') ∧ all_set g (colour w')
        ∧ count_conflicts g (colour w') = 0%nat.
Proof.
  intros Hg Hsize Hcov.
  destruct (async_phase_enough g colours_range (nodes g) [] w) as (w' & Hrun & Hs & _);
    try done.
  - intros u Hu. by apply not_elem_of_nil in Hu.
  - intros u Hu. by apply not_elem_of_nil in Hu.
  - exists w'. split; [done|]. rewrite app_nil_r in Hs.
    apply settled_all in Hs as [Hp Hset]. split; [done|]. split; [done|].
    by apply proper_no_conflicts.
Qed.

Lemma async_decisions_enough_colours_witness :
  let w := world_of (λ _, Some 0) (λ _, None) (zero_scores [0; 1; 2]) in
  ∃ w', Async.decide_phase (H := listing_order) cycle4 [0; 1; 2] (nodes cycle4) w
        = Ok (tt, w')
        ∧ count_conflicts cycle4 (colour w') = 0%nat.
Proof.
  intros w.
  destruct (async_decisions_enough_colours (H := listing_order) cycle4 [0; 1; 2] w)
    as (w' & Hrun & _ & _ & Hzero).
  - by_computation.
  - apply list.Forall_forall. by_computation.
  - apply scores_cover_zero.
  - exists w'. split; [exact Hrun | exact Hzero].
Defined.

(** *** Negotiation and the committed colours *)

(** X9.  [negotiate_with_neighbours], whatever it negotiates and whether
    the intents collide or not, returns with every committed colour and the
    score board as they were: negotiation never changes the conflicts that
    [count_conflicts] reports. *)
Theorem negotiation_keeps_colours `{SetOrder} g colours_range me ns w :
  holds_after (λ _ w', colour w' = colour w ∧ colour_scores w' = colour_scores w
                       ∧ count_conflicts g (colour w') = count_conflicts g (colour w))
              (Async.negotiate_with_neighbours g colours_range me ns w).
Proof.
  revert w. induction ns as [|n ns IH]; intros w; simpl; [done|].
  munfold.
  pose proof (negotiate_intent_colour g colours_range me n (intended_colour w n) w) as Hstep.
  destruct (Async.negotiate_intent g colours_range me n _ w) as [[[] w1]|e]; [|done].
  destruct Hstep as [Hc Hs]. specialize (IH w1).
  destruct (Async.negotiate_with_neighbours g colours_range me ns w1) as [[[] w']|e]; [|done].
  destruct IH as (Hc' & Hs' & _). simpl. rewrite Hc', Hs', Hc, Hs. done.
Qed.

(** X10.  [decide_new_colour] of the concurrent agent never reads
    [intended_colour]: from two states with the same committed colours and
    the same score board it raises the same exception or commits the same
    colours and scores.  What negotiation wrote is overwritten unread. *)
Theorem async_decide_ignores_intents `{SetOrder} g colours_range me ncs w1 w2 :
  colour w1 = colour w2 → colour_scores w1 = colour_scores w2 →
  match Async.decide_new_colour g colours_range me ncs w1,
        Async.decide_new_colour g colours_range me ncs w2 with
  | Ok (_, w1'), Ok (_, w2') =>
      colour w1' = colour w2' ∧ colour_scores w1' = colour_scores w2'
      ∧ intended_colour w1' me = intended_colour w2' me
  | Raise e1, Raise e2 => e1 = e2
  | _, _ => False
  end.
Proof.
  destruct w1 as [c1 i1 s1 r1], w2 as [c2 i2 s2 r2]. simpl. intros <- <-.
  unfold Async.decide_new_colour, Async.best_colour. munfold. cbn.
  destruct (bool_decide (set_minus (py_set (Some <$> colours_range)) ncs = [])); cbn.
  all: destruct (Async.score_keys s1 _) as [ks|e]; [|done].
  all: destruct (Async.sorted_desc ks) as [|kc rest]; [done|]; cbn.
  all: case_bool_decide; cbn; [|by rewrite !fn_lookup_insert].
  all: unfold Async.update_colour_score, sb_add; munfold; cbn.
  all: destruct (some_neighbour_has _ _ _); cbn; destruct (s1 !! kc.2); cbn; try done.
  all: by rewrite !fn_lookup_insert.
Qed.

Lemma async_decide_ignores_intents_witness :
  let w1 := world_of (colours_of [Some 0; Some 0]) (λ _, None) (zero_scores [0; 1]) in
  let w2 := world_of (colours_of [Some 0; Some 0]) (λ _, Some 1) (zero_scores [0; 1]) in
  match Async.decide_new_colour (H := listing_order) path2 [0; 1] 0 [Some 0] w1,
        Async.decide_new_colour (H := listing_order) path2 [0; 1] 0 [Some 0] w2 with
  | Ok (_, w1'), Ok (_, w2') =>
      colour w1' = colour w2' ∧ colour_scores w1' = colour_scores w2'
      ∧ intended_colour w1' 0 = intended_colour w2' 0
  | Raise e1, Raise e2 => e1 = e2
  | _, _ => False
  end.
Proof.
  intros w1 w2.
  apply (async_decide_ignores_intents (H := listing_order) path2 [0; 1] 0 [Some 0] w1 w2);
    reflexivity.
Defined.

(** *** The palette update of the concurrent variant *)

Lemma list_remove_sublist (x : Z) (l : list Z) : sublist (Async.list_remove x l) l.
Proof.
  induction l as [|y l IH]; simpl; [done|].
  case_bool_decide; [by apply sublist_cons | by apply sublist_skip].
Qed.

Lemma list_remove_length (x : Z) (l : list Z) :
  x ∈ l → length (Async.list_remove x l) = pred (length l).
Proof.
  induction l as [|y l IH]; simpl; [by intros ?%elem_of_nil|].
  case_bool_decide as Hy; [done|].
  intros [->|Hx]%elem_of_cons; [done|]. simpl. rewrite IH by done.
  destruct l; [by apply elem_of_nil in Hx | done].
Qed.


(** *** No conflict counted and no conflict there *)

Lemma no_upward_conflicts_proper g col :
  simple_graph g → directed_conflicts false g col = [] → proper_colouring g col.
Proof.
  intros Hg Hnil u Hu v Hv Heq.
  destruct (simple_graph_neighbors g u Hg Hu) as [_ Hnb].
  destruct (Hnb v Hv) as (Hvn & Hsym & Hne).
  assert ((u, v) ∈ directed_conflicts false g col ∨ (v, u) ∈ directed_conflicts false g col)
    as Hin.
  { rewrite !elem_of_directed_conflicts. unfold on_side.
    destruct (decide (u < v)); [left; done | right].
    split; [done|]. split; [done|]. split; [lia | done]. }
  rewrite Hnil in Hin. destruct Hin as [Hin|Hin]; by apply not_elem_of_nil in Hin.
Qed.

(** X12.  On a networkx graph without self-loops [count_conflicts] returns
    zero exactly when no node shares its colour with a neighbour: the
    integer halving loses no conflict. *)
Theorem count_conflicts_zero_iff_proper g col :
  simple_graph g →
  count_conflicts g col = 0%nat ↔ proper_colouring g col.
Proof.
  intros Hg. split; [|apply proper_no_conflicts].
  unfold count_conflicts. rewrite matching_neighbours_sum by done.
  pose proof (directed_conflicts_swap g col Hg) as Hswap.
  apply Permutation_length in Hswap. rewrite length_fmap in Hswap. rewrite Hswap.
  intros Hzero. apply no_upward_conflicts_proper; [done|].
  destruct (directed_conflicts false g col) as [|e l]; [done|]. exfalso.
  apply Nat.div_small_iff in Hzero; [|done]. simpl in Hzero. lia.
Qed.

Lemma count_conflicts_zero_iff_proper_witness :
  let col := colours_of [Some 0; Some 1; Some 0; Some 1] in
  count_conflicts cycle4 col = 0%nat ↔ proper_colouring cycle4 col.
Proof.
  intros col. apply (count_conflicts_zero_iff_proper cycle4 col). by_computation.
Defined.

(** *** The baseline *)

Lemma palette_size_range (k : nat) : palette_size (seqZ 0 (Z.of_nat k)) = k.
Proof.
  unfold palette_size, py_set.
  assert (NoDup (Some <$> seqZ 0 (Z.of_nat k))) as Hnd.
  { apply NoDup_fmap_2; [apply _ | apply NoDup_seqZ]. }
  assert (∀ l : list Colour, NoDup l → length (remove_dups l) = length l) as Hlen.
  { clear. induction l as [|x l IH]; [done|]. intros [Hx Hl]%list.NoDup_cons. simpl.
    destruct (decide_rel elem_of x l); [done|]. simpl. by rewrite IH. }
  rewrite Hlen by done. rewrite length_fmap, length_seqZ. lia.
Qed.

Lemma baseline_assign_returns ns (colours_range : list Z) w :
  colours_range ≠ [] →
  ∃ w', Baseline.assign_initial_colours ns colours_range w = Ok (tt, w')
        ∧ ∀ n, n ∈ ns ∨ colour w n ≠ None → colour w' n ≠ None.
Proof.
  intros Hne. revert w. induction ns as [|node ns IH]; intros w; simpl.
  - exists w. split; [done|]. intros n [Hn|Hn]; [by apply elem_of_nil in Hn | done].
  - munfold. destruct colours_range as [|c0 cr]; [done|]. unfold random_choice at 1.
    cbn [modify].
    match goal with |- context [Baseline.assign_initial_colours ns _ ?w1] =>
      destruct (IH w1) as (w' & -> & Hset) end.
    exists w'. split; [done|]. intros n Hn. apply Hset.
    destruct (decide (n = node)) as [->|Hnn].
    + right. cbn. by rewrite fn_lookup_insert.
    + destruct Hn as [[?|Hn]%elem_of_cons|Hn]; [done | by left |].
      right. cbn. by rewrite fn_lookup_insert_ne.
Qed.

Lemma baseline_update_returns `{SetOrder} g ns (colours_range : list Z) w :
  ∃ w', Baseline.update_node_colours g ns colours_range w = Ok (tt, w').
Proof.
  revert w. induction ns as [|node ns IH]; intros w; simpl; [by exists w|].
  munfold. case_bool_decide as Hav; [|apply IH].
  destruct (set_list _) as [|c l] eqn:Hl.
  - apply (proj1 (set_list_nil _)) in Hl. done.
  - unfold random_choice at 1. cbn [modify]. apply IH.
Qed.

Lemma baseline_update_enough `{SetOrder} g ns decided (colours_range : list Z) w :
  simple_graph g → (∀ n, n ∈ ns → n ∈ nodes g) → (∀ u, u ∈ decided → u ∈ nodes g) →
  (∀ n, n ∈ ns → (length (neighbors g n) < palette_size colours_range)%nat) →
  settled g (colour w) decided →
  ∃ w', Baseline.update_node_colours g ns colours_range w = Ok (tt, w')
        ∧ settled g (colour w') (ns ++ decided).
Proof.
  intros Hg. revert decided w.
  induction ns as [|n ns IH]; intros decided w Hns Hdec Hsize Hs; simpl.
  - by exists w.
  - munfold. set (ncs := perceive_environment g n w).
    assert (set_minus (py_set (Some <$> colours_range)) ncs ≠ []) as Hfree.
    { apply free_colours_exist. unfold ncs. rewrite length_perceive. apply Hsize. left. }
    rewrite bool_decide_eq_true_2 by done.
    destruct (random_choice (set_list _) w) as [[c w1]|e] eqn:Hch.
    + apply random_choice_elem in Hch as [Hc ->]. cbn [modify].
      apply (proj1 (set_list_elem _ _)) in Hc.
      apply elem_of_set_minus in Hc as [(k & -> & Hk)%elem_of_py_set_palette Hout].
      match goal with |- context [Baseline.update_node_colours g ns _ ?w1] =>
        destruct (IH (n :: decided) w1) as (w' & -> & Hs') end.
      * intros m Hm. apply Hns. by right.
      * intros u [->|Hu]%elem_of_cons; [apply Hns; left | by apply Hdec].
      * intros m Hm. apply Hsize. by right.
      * cbn. apply settled_change; [done | apply Hns; left | done..].
      * exists w'. split; [done|]. eapply settled_incl; [|exact Hs']. apply cons_app_incl.
    + unfold random_choice in Hch. destruct (set_list _) as [|c l] eqn:Hl; [|done].
      apply (proj1 (set_list_nil _)) in Hl. done.
Qed.

Lemma range_nonempty (k : nat) : (0 < k)%nat → seqZ 0 (Z.of_nat k) ≠ [].
Proof.
  intros Hk Hnil. apply (f_equal length) in Hnil. rewrite length_seqZ in Hnil.
  simpl in Hnil. lia.
Qed.

Lemma baseline_attempt_returns `{SetOrder} g (k : nat) w :
  (0 < k)%nat →
  ∃ w', Baseline.colouring_attempt g k w = Ok (count_conflicts g (colour w'), w').
Proof.
  intros Hk. unfold Baseline.colouring_attempt. munfold.
  destruct (baseline_assign_returns (nodes g) (seqZ 0 (Z.of_nat k)) w (range_nonempty k Hk))
    as (w1 & -> & _).
  destruct (baseline_update_returns g (nodes g) (seqZ 0 (Z.of_nat k)) w1) as (w' & ->).
  by exists w'.
Qed.

Lemma baseline_attempt_enough `{SetOrder} g (k : nat) w :
  simple_graph g →
  (∀ n, n ∈ nodes g → (length (neighbors g n) < k)%nat) →
  (0 < k)%nat →
  ∃ w', Baseline.colouring_attempt g k w = Ok (0%nat, w')
        ∧ proper_colouring g (colour w') ∧ all_set g (colour w').
Proof.
  intros Hg Hsize Hk. unfold Baseline.colouring_attempt. munfold.
  destruct (baseline_assign_returns (nodes g) (seqZ 0 (Z.of_nat k)) w (range_nonempty k Hk))
    as (w1 & -> & _).
  destruct (baseline_update_enough g (nodes g) [] (seqZ 0 (Z.of_nat k)) w1)
    as (w' & -> & Hs); try done.
  - intros u Hu. by apply not_elem_of_nil in Hu.
  - intros n Hn. rewrite palette_size_range. by apply Hsize.
  - intros u Hu. by apply not_elem_of_nil in Hu.
  - rewrite app_nil_r in Hs. apply settled_all in Hs as [Hp Hset].
    exists w'. rewrite (proper_no_conflicts g _ Hp). done.
Qed.

(** X13.  One turn of the baseline's loop with [num_colours] colours
    [0 .. num_colours-1]: it never raises, the first pass leaves every node
    with a colour, and when [num_colours] exceeds the degree of every node of
    a graph without self-loops the second pass leaves a proper colouring, so
    the turn counts zero conflicts, whatever the random draws. *)
Theorem baseline_attempt_enough_colours `{SetOrder} g (num_colours : nat) w :
  simple_graph g →
  (0 < num_colours)%nat →
  (∃ w1, Baseline.assign_initial_colours (nodes g) (seqZ 0 (Z.of_nat num_colours)) w
         = Ok (tt, w1) ∧ all_set g (colour w1))
  ∧ (∃ w', Baseline.colouring_attempt g num_colours w
           = Ok (count_conflicts g (colour w'), w'))
  ∧ ((∀ n, n ∈ nodes g → (length (neighbors g n) < num_colours)%nat) →
     ∃ w', Baseline.colouring_attempt g num_colours w = Ok (0%nat, w')
           ∧ proper_colouring g (colour w') ∧ all_set g (colour w')).
Proof.
  intros Hg Hk. split; [|split].
  - destruct (baseline_assign_returns (nodes g) (seqZ 0 (Z.of_nat num_colours)) w
                (range_nonempty _ Hk)) as (w1 & Hrun & Hset).
    exists w1. split; [done|]. intros u Hu. apply Hset. by left.
  - by apply baseline_attempt_returns.
  - intros Hsize. by apply baseline_attempt_enough.
Qed.

Lemma baseline_attempt_enough_colours_witness :
  let w := world_of (λ _, None) (λ _, None) ∅ in
  (∀ n, n ∈ nodes cycle4 → (length (neighbors cycle4 n) < 3)%nat)
  ∧ ∃ w', Baseline.colouring_attempt (H := listing_order) cycle4 3 w = Ok (0%nat, w')
          ∧ proper_colouring cycle4 (colour w').
Proof.
  intros w.
  assert (∀ n, n ∈ nodes cycle4 → (length (neighbors cycle4 n) < 3)%nat) as Hsize.
  { apply list.Forall_forall. by_computation. }
  split; [exact Hsize|].
  destruct (baseline_attempt_enough_colours (H := listing_order) cycle4 3 w)
    as (_ & _ & Hrun).
  - by_computation.
  - lia.
  - destruct (Hrun Hsize) as (w' & Heq & Hp & _). exists w'. split; [exact Heq | exact Hp].
Defined.

(** X14.  The [while conflicts != 0] loop of the baseline stops: started
    with [num_colours = k0] on a graph without self-loops it raises nothing
    and ends, at the latest in the turn in which [num_colours] exceeds every
    degree, with zero conflicts.  It has then appended one row per turn,
    with [num_colours] counting up from [k0 + 1], and only the last row
    reports zero conflicts. *)
Theorem baseline_search_stops `{SetOrder} g (fuel k0 : nat) results w :
  simple_graph g →
  (∀ n, n ∈ nodes g → (length (neighbors g n) < k0 + fuel)%nat) →
  (0 < fuel)%nat →
  ∃ rows k w',
    Baseline.colour_search fuel g k0 results w
    = Ok (Some (k, results ++ rows ++ [(k, 0%nat)]), w')
    ∧ rows.*1 = seq (S k0) (length rows)
    ∧ k = (k0 + S (length rows))%nat ∧ (k ≤ k0 + fuel)%nat
    ∧ Forall (λ r, r.2 ≠ 0%nat) rows
    ∧ count_conflicts g (colour w') = 0%nat.
Proof.
  intros Hg. revert k0 results w.
  induction fuel as [|fuel IH]; intros k0 results w Hsize Hfuel; [lia|].
  simpl. munfold.
  destruct (baseline_attempt_returns g (S k0) w) as (w1 & Hrun); [lia|].
  rewrite Hrun. case_bool_decide as Hzero.
  - exists [], (S k0), w1. rewrite Hzero. simpl.
    split; [done|]. split; [done|]. split; [lia|]. split; [lia|]. split; [done|]. done.
  - destruct (decide (fuel = 0%nat)) as [->|Hpos].
    + destruct (baseline_attempt_enough g (S k0) w) as (w2 & Hrun2 & _); [done| |lia|].
      * intros n Hn. specialize (Hsize n Hn). lia.
      * rewrite Hrun in Hrun2. by injection Hrun2 as Hc _.
    + destruct (IH (S k0) (results ++ [(S k0, count_conflicts g (colour w1))]) w1)
        as (rows & k & w' & -> & Hfst & -> & Hle & Hrows & Hfinal); [|lia|].
      * intros n Hn. specialize (Hsize n Hn). lia.
      * exists ((S k0, count_conflicts g (colour w1)) :: rows), (S k0 + S (length rows))%nat, w'.
        split; [by rewrite <- app_assoc|]. split; [by rewrite fmap_cons, Hfst|].
        split; [simpl; lia|]. split; [lia|]. split; [|done].
        by constructor.
Qed.

Lemma baseline_search_stops_witness :
  let w := world_of (λ _, None) (λ _, None) ∅ in
  ∃ rows k w',
    Baseline.colour_search (H := listing_order) 3 cycle4 0 [] w
    = Ok (Some (k, rows ++ [(k, 0%nat)]), w')
    ∧ (k ≤ 3)%nat ∧ count_conflicts cycle4 (colour w') = 0%nat.
Proof.
  intros w.
  destruct (baseline_search_stops (H := listing_order) cycle4 3 0 [] w)
    as (rows & k & w' & Hrun & _ & _ & Hle & _ & Hzero).
  - by_computation.
  - apply list.Forall_forall. by_computation.
  - lia.
  - exists rows, k, w'. split; [exact Hrun|]. split; [exact Hle | exact Hzero].
Defined.

(** *** The conflict count on the adjacency matrix *)

Lemma count_conflicts_upward g col :
  simple_graph g → count_conflicts g col = length (directed_conflicts false g col).
Proof.
  intros Hg. unfold count_conflicts. rewrite matching_neighbours_sum by done.
  pose proof (Permutation_length (directed_conflicts_swap g col Hg)) as Hlen.
  rewrite length_fmap in Hlen. rewrite Hlen.
  set (n := length (directed_conflicts false g col)).
  replace (n + n)%nat with (n * 2)%nat by lia. by apply Nat.div_mul.
Qed.

Lemma sum_list_with_fmap_nat {A B : Type} (f : B → nat) (h : A → B) (l : list A) :
  sum_list_with f (h <$> l) = sum_list_with (λ x, f (h x)) l.
Proof.
  induction l as [|x l IH]; [done|]. rewrite fmap_cons.
  change (sum_list_with f (h x :: (h <$> l))) with (f (h x) + sum_list_with f (h <$> l))%nat.
  by rewrite IH.
Qed.

Lemma sum_list_with_ext_in {A : Type} (f1 f2 : A → nat) (l : list A) :
  (∀ x, x ∈ l → f1 x = f2 x) → sum_list_with f1 l = sum_list_with f2 l.
Proof.
  induction l as [|x l IH]; intros Hf; [done|].
  change (sum_list_with f1 (x :: l)) with (f1 x + sum_list_with f1 l)%nat.
  change (sum_list_with f2 (x :: l)) with (f2 x + sum_list_with f2 l)%nat.
  rewrite (Hf x) by left. rewrite IH; [done|]. intros y Hy. apply Hf. by right.
Qed.

Lemma pair_conflicts_ok matrix (node_colors : list Z) (i j : nat) :
  (i < length node_colors)%nat → (j < length node_colors)%nat →
  CreateGraph.pair_conflicts matrix node_colors i j
  = Ok (bool_decide (0 < CreateGraph.entry matrix i j ∧ node_colors !! i = node_colors !! j)).
Proof.
  intros [a Ha]%lookup_lt_is_Some_2 [b Hb]%lookup_lt_is_Some_2.
  unfold CreateGraph.pair_conflicts, CreateGraph.colour_at. rewrite Ha, Hb.
  destruct (decide (0 < CreateGraph.entry matrix i j)) as [Hp|Hp].
  - rewrite (bool_decide_eq_true_2 _ Hp). f_equal. apply bool_decide_ext.
    split; [by intros -> | by intros [_ [= ->]]].
  - rewrite (bool_decide_eq_false_2 _ Hp). f_equal. symmetry.
    apply bool_decide_eq_false_2. tauto.
Qed.

Lemma count_row_ok matrix (node_colors : list Z) (i : nat) (js : list nat) (acc : nat) :
  (i < length node_colors)%nat → (∀ j, j ∈ js → (j < length node_colors)%nat) →
  CreateGraph.count_row matrix node_colors i js acc
  = Ok (Nat.add acc (length (filter (λ j, 0 < CreateGraph.entry matrix i j
                                          ∧ node_colors !! i = node_colors !! j) js))).
Proof.
  intros Hi. revert acc. induction js as [|j js IH]; intros acc Hjs; simpl.
  - f_equal. lia.
  - rewrite pair_conflicts_ok; [|done|apply Hjs; left].
    rewrite IH by (intros k Hk; apply Hjs; by right).
    rewrite filter_cons. case_bool_decide as Hc.
    + rewrite decide_True by done. simpl. f_equal. lia.
    + rewrite decide_False by done. done.
Qed.

Lemma count_rows_ok matrix (node_colors : list Z) (rows : list nat) (acc : nat) :
  length node_colors = CreateGraph.size matrix →
  (∀ i, i ∈ rows → (i < CreateGraph.size matrix)%nat) →
  CreateGraph.count_rows matrix node_colors rows acc
  = Ok (Nat.add acc
          (sum_list_with
             (λ i, length (filter (λ j, 0 < CreateGraph.entry matrix i j
                                        ∧ node_colors !! i = node_colors !! j)
                                  (seq (S i) (Nat.sub (CreateGraph.size matrix) (S i)))))
             rows)).
Proof.
  intros Hlen. revert acc. induction rows as [|i rows IH]; intros acc Hrows; simpl.
  - f_equal. lia.
  - rewrite count_row_ok.
    + rewrite IH by (intros k Hk; apply Hrows; by right). f_equal. lia.
    + rewrite Hlen. apply Hrows. left.
    + intros j Hj%elem_of_seq. lia.
Qed.

(** The neighbours above node [i] that share its colour are the columns
    right of the diagonal of row [i] that hold a conflict. *)
Lemma matrix_row_conflicts g matrix (node_colors : list Z) (i : nat) :
  simple_graph g → adjacency_matrix g matrix → (i < CreateGraph.size matrix)%nat →
  length (filter (λ v, on_side false (Z.of_nat i) v
                       ∧ listed_colour node_colors (Z.of_nat i) = listed_colour node_colors v)
                 (neighbors g (Z.of_nat i)))
  = length (filter (λ j, 0 < CreateGraph.entry matrix i j
                         ∧ node_colors !! i = node_colors !! j)
                   (seq (S i) (Nat.sub (CreateGraph.size matrix) (S i)))).
Proof.
  intros Hg [Hnodes Hadj] Hi.
  assert (Z.of_nat i ∈ nodes g) as Hin.
  { rewrite Hnodes. apply list_elem_of_fmap_2, elem_of_seq. lia. }
  destruct (simple_graph_neighbors g _ Hg Hin) as [Hnd Hnb].
  rewrite <- (length_fmap Z.of_nat (filter _ (seq _ _))).
  apply Permutation_length, NoDup_Permutation.
  - by apply list.NoDup_filter.
  - apply NoDup_fmap_2; [apply _|]. apply list.NoDup_filter, NoDup_seq.
  - intros v. rewrite list_elem_of_fmap, list_elem_of_filter. unfold on_side, listed_colour.
    rewrite Nat2Z.id. split.
    + intros ((Hlt & Hcol) & Hv).
      destruct (Hnb v Hv) as (Hvn & _ & _). rewrite Hnodes in Hvn.
      apply list_elem_of_fmap in Hvn as (j & -> & Hj%elem_of_seq).
      exists j. split; [done|]. apply list_elem_of_filter. rewrite Nat2Z.id in Hcol.
      split; [|apply elem_of_seq; lia]. split; [|done].
      rewrite list.Forall_forall in Hadj. specialize (Hadj i).
      rewrite list.Forall_forall in Hadj. apply Hadj; [apply elem_of_seq; lia.. | done].
    + intros (j & -> & ((Hpos & Hcol) & Hj%elem_of_seq)%list_elem_of_filter).
      rewrite Nat2Z.id. split; [split; [lia | done]|].
      rewrite list.Forall_forall in Hadj. specialize (Hadj i).
      rewrite list.Forall_forall in Hadj. apply (Hadj ltac:(apply elem_of_seq; lia) j);
        [apply elem_of_seq; lia | done].
Qed.

(** X15.  [count_conflicts] of [create_graph.py], run on the adjacency
    matrix of a graph without self-loops and the list of its nodes' colours,
    raises nothing and returns what [count_conflicts] of the agent variants
    returns on the graph itself with the same colours. *)
Theorem matrix_count_agrees g matrix (node_colors : list Z) :
  simple_graph g → adjacency_matrix g matrix →
  length node_colors = CreateGraph.size matrix →
  CreateGraph.count_conflicts matrix node_colors
  = Ok (count_conflicts g (listed_colour node_colors)).
Proof.
  intros Hg Hadj Hlen. unfold CreateGraph.count_conflicts.
  rewrite count_rows_ok; [|done|intros i Hi%elem_of_seq; lia].
  rewrite count_conflicts_upward by done. unfold directed_conflicts.
  rewrite length_bind_sum. destruct Hadj as [Hnodes Hentries]. rewrite Hnodes.
  rewrite sum_list_with_fmap_nat. simpl. f_equal.
  apply sum_list_with_ext_in. intros i Hi%elem_of_seq.
  rewrite length_fmap. symmetry. apply matrix_row_conflicts; [done | by split | lia].
Qed.

Lemma matrix_count_agrees_witness :
  let matrix := {| CreateGraph.size := 4;
                   CreateGraph.entry := λ i j,
                     if bool_decide (Z.of_nat j ∈ neighbors cycle4 (Z.of_nat i)) then 1 else 0 |} in
  CreateGraph.count_conflicts matrix [0; 0; 1; 1]
  = Ok (count_conflicts cycle4 (listed_colour [0; 0; 1; 1])).
Proof.
  intros matrix. apply (matrix_count_agrees cycle4 matrix [0; 0; 1; 1]).
  - by_computation.
  - by_computation.
  - reflexivity.
Defined.

(** *** The experiment of the negotiating variant *)

Lemma palette_size_nodup (colours_range : list Z) :
  NoDup colours_range → palette_size colours_range = length colours_range.
Proof.
  intros Hnd. unfold palette_size, py_set.
  assert (NoDup (Some <$> colours_range)) as Hnd' by (apply NoDup_fmap_2; [apply _ | done]).
  rewrite <- (length_fmap Some colours_range).
  induction (Some <$> colours_range) as [|x l IH]; [done|].
  apply list.NoDup_cons in Hnd' as [Hx Hl]. simpl.
  destruct (decide_rel elem_of x l); [done|]. simpl. by rewrite IH.
Qed.

Lemma remove_colour_ok (colours_range : list Z) w :
  colours_range ≠ [] →
  ∃ colours_range',
    Experiment.remove_colour colours_range w
    = Ok (colours_range', set_rng (λ i, rng w (S i)) w)
    ∧ sublist colours_range' colours_range
    ∧ length colours_range' = pred (length colours_range).
Proof.
  intros Hne. unfold Experiment.remove_colour. munfold.
  rewrite bool_decide_eq_true_2 by (destruct colours_range; [done | simpl; lia]).
  destruct (random_choice colours_range w) as [[c w1]|e] eqn:Hch.
  - apply random_choice_elem in Hch as [Hc ->]. eexists. split; [done|].
    split; [apply list_remove_sublist | by apply list_remove_length].
  - unfold random_choice in Hch. by destruct colours_range.
Qed.

Lemma scores_cover_sublist (l1 l2 : list Z) sb :
  sublist l1 l2 → scores_cover l2 sb → scores_cover l1 sb.
Proof. intros Hsub Hcov k Hk. apply Hcov. by eapply elem_of_sublist. Qed.

Lemma experiment_loop_rounds `{SetOrder} (n : nat) :
  ∀ fuel rewire_edges stored g (colours_range : list Z) inner_counter conflicts results w,
  rewiring_returns rewire_edges →
  (inner_counter + n = 9)%nat → (n < fuel)%nat →
  NoDup colours_range → length colours_range = (5 + n)%nat →
  scores_cover colours_range (colour_scores w) →
  ∃ g' colours_range' conflicts' rows w',
    Experiment.experiment_loop fuel rewire_edges stored g colours_range inner_counter
                               conflicts results w
    = Ok (Some (g', colours_range', conflicts', results ++ rows), w')
    ∧ rows.*1 = rev (seq 5 n)
    ∧ length colours_range' = 5%nat
    ∧ sublist colours_range' colours_range.
Proof.
  induction n as [|n IH];
    intros fuel rewire_edges stored g colours_range inner_counter conflicts results w
           Hrw Hcount Hfuel Hnd Hlen Hcov.
  - destruct fuel as [|fuel]; [lia|]. simpl.
    rewrite bool_decide_eq_true_2 by lia.
    exists g, colours_range, conflicts, [], w. rewrite app_nil_r. done.
  - destruct fuel as [|fuel]; [lia|]. cbn [Experiment.experiment_loop].
    rewrite bool_decide_eq_false_2 by lia. munfold.
    destruct (remove_colour_ok colours_range w) as (pal & -> & Hsub & Hlen');
      [by destruct colours_range|].
    rewrite Hlen in Hlen'. simpl in Hlen'.
    set (w1 := set_rng _ w).
    assert (∃ g1 w2, (if bool_decide (length pal = 8%nat) then rewire_edges g
                      else λ w0, Ok (g, w0)) w1
                     = Ok (g1, w2) ∧ colour_scores w2 = colour_scores w) as (g1 & w2 & -> & Hsc).
    { case_bool_decide.
      - destruct (Hrw g w1) as (g1 & w2 & -> & Hsc). by exists g1, w2.
      - by exists g, w1. }
    assert (NoDup pal) as Hnd' by (by eapply sublist_NoDup).
    assert (scores_cover pal (colour_scores w2)) as Hcov'.
    { rewrite Hsc. by eapply scores_cover_sublist. }
    unfold Negotiate.simulate_colouring. munfold.
    destruct (negotiate_round_total g1 pal (nodes g1) (create_agents stored pal w2))
      as (w3 & -> & Hcov3); [rewrite palette_size_nodup by done; lia | done |].
    cbn [gets].
    destruct (IH fuel rewire_edges stored g1 pal (S inner_counter)
                (count_conflicts g1 (colour w3))
                (results ++ [(length pal, count_conflicts g1 (colour w3))]) w3)
      as (g' & pal' & c' & rows & w' & -> & Hrows & Hfive & Hsub');
      [done | lia | lia | done | lia | done |].
    exists g', pal', c', ((length pal, count_conflicts g1 (colour w3)) :: rows), w'.
    split; [by rewrite <- app_assoc|]. split; [|split; [done | by etrans]].
    rewrite fmap_cons, Hrows, Hlen'. cbn [fst].
    rewrite seq_S, rev_app_distr. done.
Qed.

(** X16.  One experiment of the negotiating variant, started with fourteen
    distinct colours that all have a score, never ends early: provided
    [rewire_edges] returns, the loop raises nothing and leaves through the
    inner counter after exactly nine rounds, whatever the graph and the
    conflicts, with the rows [13, 12, .., 5] colours appended and five
    colours of the first palette left. *)
Theorem negotiating_experiment_nine_rounds `{SetOrder} fuel rewire_edges stored g
    (colours_range : list Z) conflicts w :
  rewiring_returns rewire_edges →
  NoDup colours_range → length colours_range = 14%nat →
  scores_cover colours_range (colour_scores w) →
  (10 ≤ fuel)%nat →
  ∃ g' colours_range' conflicts' rows w',
    Experiment.experiment_loop fuel rewire_edges stored g colours_range 0 conflicts [] w
    = Ok (Some (g', colours_range', conflicts', rows), w')
    ∧ rows.*1 = [13; 12; 11; 10; 9; 8; 7; 6; 5]%nat
    ∧ length colours_range' = 5%nat
    ∧ sublist colours_range' colours_range.
Proof.
  intros Hrw Hnd Hlen Hcov Hfuel.
  destruct (experiment_loop_rounds 9 fuel rewire_edges stored g colours_range 0%nat
              conflicts [] w) as (g' & pal' & c' & rows & w' & Hrun & Hrows & Hfive & Hsub);
    [done | lia | lia | done | by rewrite Hlen | done |].
  exists g', pal', c', rows, w'. done.
Qed.

Lemma negotiating_experiment_nine_rounds_witness :
  let w := world_of (λ _, None) (λ _, None) (zero_scores (seqZ 0 14)) in
  ∃ g' colours_range' conflicts' rows w',
    Experiment.experiment_loop (H := listing_order) 10 mret (stored_of [0; 1; 0; 1]) cycle4
                               (seqZ 0 14) 0 0 [] w
    = Ok (Some (g', colours_range', conflicts', rows), w')
    ∧ rows.*1 = [13; 12; 11; 10; 9; 8; 7; 6; 5]%nat.
Proof.
  intros w.
  destruct (negotiating_experiment_nine_rounds (H := listing_order) 10 mret
              (stored_of [0; 1; 0; 1]) cycle4 (seqZ 0 14) 0 w)
    as (g' & pal' & c' & rows & w' & Hrun & Hrows & _).
  - intros g0 w0. exists g0, w0. split; reflexivity.
  - by_computation.
  - reflexivity.
  - apply scores_cover_zero.
  - lia.
  - exists g', pal', c', rows, w'. split; [exact Hrun | exact Hrows].
Defined.
